(** * exyzzy/lsys: L-system rewriting, turtle interpretation and drawing
    transforms, embedded from [lsys.go] and [drawing/drawing.go].

    Layout of the development:
    - [GoRuntime]: what the Go language supplies (runtime panics on a bad
      index, [range] over a string, the conversion [string(rune)]);
    - [Float64]: the arithmetic the code performs on [float64], given as an
      interface and read at IEEE binary64 ([binary64]);
    - [drawing]: the package [drawing];
    - [lsys]: the package [lsys];
    - the statements about them. *)

From Stdlib Require Import ZArith List String Ascii Bool Lia.
From Stdlib Require Import Floats.
From stdpp Require Import base option list gmap strings.

Local Open Scope string_scope.
Local Open Scope Z_scope.

(* ===================================================================== *)
(** ** What the Go language supplies *)
(* ===================================================================== *)

Module GoRuntime.

(** A run-time panic.  The only one the modelled code can raise is the
    bounds check of an index expression [a[i]]:
    "index out of range [i] with length n". *)
Inductive runtime_error : Type :=
  | index_out_of_range (i : Z) (len : Z).

(** The outcome of a call that may panic.  A panic unwinds to the caller,
    and nothing the callee was computing is handed over. *)
Inductive result (A : Type) : Type :=
  | Ok (a : A)
  | Panic (e : runtime_error).
Arguments Ok {A} a.
Arguments Panic {A} e.

Definition bind {A B : Type} (r : result A) (k : A -> result B) : result B :=
  match r with
  | Ok a => k a
  | Panic e => Panic e
  end.

(** [a[i]] for a slice [a] and an [int] index [i]. *)
Definition index {A : Type} (a : list A) (i : Z) : result A :=
  if (i <? 0) || (Z.of_nat (length a) <=? i)
  then Panic (index_out_of_range i (Z.of_nat (length a)))
  else match nth_error a (Z.to_nat i) with
       | Some x => Ok x
       | None => Panic (index_out_of_range i (Z.of_nat (length a)))
       end.

(** [a[i] = x]: the slice with element [i] replaced. *)
Fixpoint set_nth {A : Type} (a : list A) (i : nat) (x : A) : list A :=
  match a, i with
  | [], _ => []
  | _ :: r, O => x :: r
  | y :: r, S j => y :: set_nth r j x
  end.

(** A [rune] is an [int32] holding a Unicode code point. *)
Definition rune : Type := Z.

Definition RuneError : rune := 65533.   (* U+FFFD *)

Definition byte_val (b : ascii) : Z := Z.of_N (N_of_ascii b).

Definition byte_of (z : Z) : ascii := ascii_of_N (Z.to_N z).

(** A UTF-8 continuation byte, 0x80..0xBF. *)
Definition is_cont (b : ascii) : bool :=
  (128 <=? byte_val b) && (byte_val b <=? 191).

(** What the first byte of an encoding announces (package [unicode/utf8],
    table [first] with [acceptRanges]): the length of the sequence and the
    range its second byte must lie in. *)
Definition first (b0 : ascii) : option (nat * Z * Z) :=
  let x := byte_val b0 in
  if (194 <=? x) && (x <=? 223) then Some (2%nat, 128, 191)
  else if x =? 224 then Some (3%nat, 160, 191)
  else if (225 <=? x) && (x <=? 236) then Some (3%nat, 128, 191)
  else if x =? 237 then Some (3%nat, 128, 159)
  else if (238 <=? x) && (x <=? 239) then Some (3%nat, 128, 191)
  else if x =? 240 then Some (4%nat, 144, 191)
  else if (241 <=? x) && (x <=? 243) then Some (4%nat, 128, 191)
  else if x =? 244 then Some (4%nat, 128, 143)
  else None.

Definition in_range (lo hi : Z) (b : ascii) : bool :=
  (lo <=? byte_val b) && (byte_val b <=? hi).

(** [for _, v := range s]: the runes [v] the loop visits, in order.  A byte
    that starts no valid encoding yields [RuneError] and the scan moves on
    by one byte. *)
Fixpoint runes (s : string) : list rune :=
  match s with
  | EmptyString => []
  | String b0 r0 =>
    if byte_val b0 <? 128 then byte_val b0 :: runes r0
    else
      match first b0 with
      | None => RuneError :: runes r0
      | Some (sz, lo, hi) =>
        match sz, r0 with
        | 2%nat, String b1 r1 =>
          if in_range lo hi b1
          then Z.lor (Z.shiftl (Z.land (byte_val b0) 31) 6)
                     (Z.land (byte_val b1) 63) :: runes r1
          else RuneError :: runes r0
        | 3%nat, String b1 (String b2 r2) =>
          if in_range lo hi b1 && is_cont b2
          then Z.lor (Z.lor (Z.shiftl (Z.land (byte_val b0) 15) 12)
                            (Z.shiftl (Z.land (byte_val b1) 63) 6))
                     (Z.land (byte_val b2) 63) :: runes r2
          else RuneError :: runes r0
        | 4%nat, String b1 (String b2 (String b3 r3)) =>
          if in_range lo hi b1 && is_cont b2 && is_cont b3
          then Z.lor (Z.lor (Z.lor (Z.shiftl (Z.land (byte_val b0) 7) 18)
                                   (Z.shiftl (Z.land (byte_val b1) 63) 12))
                            (Z.shiftl (Z.land (byte_val b2) 63) 6))
                     (Z.land (byte_val b3) 63) :: runes r3
          else RuneError :: runes r0
        | _, _ => RuneError :: runes r0
        end
      end
  end.

Definition bytes (l : list Z) : string :=
  fold_right (fun z s => String (byte_of z) s) EmptyString l.

(** [string(v)] for a rune [v]: its UTF-8 encoding, and the encoding of
    U+FFFD for a value that is no code point. *)
Definition string_of_rune (v : rune) : string :=
  if (0 <=? v) && (v <? 128) then bytes [v]
  else if (128 <=? v) && (v <? 2048) then
    bytes [Z.lor 192 (Z.shiftr v 6); Z.lor 128 (Z.land v 63)]
  else if ((2048 <=? v) && (v <? 55296)) || ((57344 <=? v) && (v <? 65536)) then
    bytes [Z.lor 224 (Z.shiftr v 12);
           Z.lor 128 (Z.land (Z.shiftr v 6) 63);
           Z.lor 128 (Z.land v 63)]
  else if (65536 <=? v) && (v <=? 1114111) then
    bytes [Z.lor 240 (Z.shiftr v 18);
           Z.lor 128 (Z.land (Z.shiftr v 12) 63);
           Z.lor 128 (Z.land (Z.shiftr v 6) 63);
           Z.lor 128 (Z.land v 63)]
  else bytes [239; 191; 189].

(** The rune of an ASCII character literal such as ['F']. *)
Definition rune_of (c : ascii) : rune := byte_val c.

(** Package [errors]: an error value carries its message. *)
Inductive error : Type :=
  | errors_New (text : string).

End GoRuntime.
Export GoRuntime.

(* ===================================================================== *)
(** ** The arithmetic of [float64] *)
(* ===================================================================== *)

(** The operations the code applies to [float64] values.  The code is
    embedded once, over this interface, and read at [binary64], the IEEE 754
    double precision numbers Go computes with (every operation rounds to
    nearest, ties to even).  What does not depend on the arithmetic is
    proved for every instance. *)
Class Float64 (F : Type) : Type := {
  lit0 : F;                       (* the constants 0, 1.0 and 2 (2.0) *)
  lit1 : F;
  lit2 : F;
  add : F -> F -> F;
  sub : F -> F -> F;
  mul : F -> F -> F;
  div : F -> F -> F;
  math_Min : F -> F -> F;
  math_Max : F -> F -> F
}.

(** Package [math]: cosine, sine, and the constant [math.Pi / 180.0], which
    the compiler folds into one [float64]. *)
Class Math (F : Type) : Type := {
  math_Cos : F -> F;
  math_Sin : F -> F;
  Pi_div_180 : F
}.

Declare Scope f64_scope.
Delimit Scope f64_scope with f64.
Infix "+" := add : f64_scope.
Infix "-" := sub : f64_scope.
Infix "*" := mul : f64_scope.
Infix "/" := div : f64_scope.

(** IEEE 754 binary64, the [float64] of Go.  Every operation rounds on its
    own, to nearest with ties to even; no multiplication is fused with a
    following addition (as on amd64). *)
Module binary64.

Definition IsNaN (x : float) : bool := PrimFloat.is_nan x.

(** [math.IsInf(x, sign)] for [sign] = -1 and +1. *)
Definition IsNegInf (x : float) : bool := PrimFloat.eqb x neg_infinity.
Definition IsPosInf (x : float) : bool := PrimFloat.eqb x infinity.

Definition Signbit (x : float) : bool := PrimFloat.get_sign x.

(** [math.Min], with its special cases for infinities, NaN and the two
    zeros. *)
Definition Min (x y : float) : float :=
  if IsNegInf x || IsNegInf y then neg_infinity
  else if IsNaN x || IsNaN y then nan
  else if PrimFloat.eqb x 0 && PrimFloat.eqb x y then
    (if Signbit x then x else y)
  else if PrimFloat.ltb x y then x else y.

(** [math.Max]. *)
Definition Max (x y : float) : float :=
  if IsPosInf x || IsPosInf y then infinity
  else if IsNaN x || IsNaN y then nan
  else if PrimFloat.eqb x 0 && PrimFloat.eqb x y then
    (if Signbit x then y else x)
  else if PrimFloat.ltb y x then x else y.

#[global] Instance ops : Float64 float := {
  lit0 := 0%float;
  lit1 := 1%float;
  lit2 := 2%float;
  add := PrimFloat.add;
  sub := PrimFloat.sub;
  mul := PrimFloat.mul;
  div := PrimFloat.div;
  math_Min := Min;
  math_Max := Max
}.

(** [math.Cos] and [math.Sin] are library routines outside the repository;
    the instance takes them as given.  [math.Pi / 180.0] rounds to the
    double 0x1.1df46a2529d39p-6. *)
Definition math (Cos Sin : float -> float) : Math float := {|
  math_Cos := Cos;
  math_Sin := Sin;
  Pi_div_180 := 0x1.1df46a2529d39p-6%float
|}.

(** Two polynomial stand-ins for cosine and sine, to run the interpreter
    on concrete inputs. *)
Definition cos_poly (x : float) : float := (1 - x * x / 2)%float.
Definition sin_poly (x : float) : float := (x - x * x * x / 6)%float.


(** The order of two positive doubles of the same sign, given by their
    exponents and mantissas: by the exponents first. *)
Definition lex (e1 : Z) (m1 : positive) (e2 : Z) (m2 : positive)
  : comparison :=
  match e1 ?= e2 with
  | Lt => Lt
  | Gt => Gt
  | Eq => Pos.compare_cont Eq m1 m2
  end.

(** The sign, mantissa and exponent of the double of an integer [n] with
    [|n| < 2^53]: the mantissa is [|n|] shifted to 53 bits. *)
Definition int_sf (n : Z) : spec_float :=
  match n with
  | Z0 => S754_zero false
  | _ => S754_finite (n <? 0)
           (Z.to_pos (Z.abs n * 2 ^ (52 - Z.log2 (Z.abs n))))
           (Z.log2 (Z.abs n) - 52)
  end.

End binary64.


(* ===================================================================== *)
(** ** Package [image/color] *)
(* ===================================================================== *)

Module color.

(** [color.RGBA]: four [uint8] channels. *)
Record RGBA : Type := mkRGBA {
  RGBA_R : Byte.byte;
  RGBA_G : Byte.byte;
  RGBA_B : Byte.byte;
  RGBA_A : Byte.byte
}.

End color.

(* ===================================================================== *)
(** ** Package [drawing] *)
(* ===================================================================== *)

Module drawing.
Import color.

Definition ColorRED : RGBA := mkRGBA Byte.xff Byte.x00 Byte.x00 Byte.xff.
Definition ColorGREEN : RGBA := mkRGBA Byte.x00 Byte.xff Byte.x00 Byte.xff.
Definition ColorBLUE : RGBA := mkRGBA Byte.x00 Byte.x00 Byte.xff Byte.xff.
Definition ColorWHITE : RGBA := mkRGBA Byte.xff Byte.xff Byte.xff Byte.xff.
Definition ColorBLACK : RGBA := mkRGBA Byte.x00 Byte.x00 Byte.x00 Byte.xff.

Section Generic.
Context {F : Type} {ops : Float64 F} {mth : Math F}.
Local Open Scope f64_scope.

(** [FPoint] is a floating point 2d point. *)
Record FPoint : Type := mkFPoint { X : F; Y : F }.

(** [Path] is a single path of connected points with RGBA color. *)
Record Path : Type := mkPath { Points : list FPoint; Color : RGBA }.

(** [Drawing] is an array of paths. *)
Record Drawing : Type := mkDrawing { Paths : list Path }.

(** [FRect] is an [FPoint] min/max rectangle. *)
Record FRect : Type := mkFRect { Min : FPoint; Max : FPoint }.

(** [MoveTo] starts a new path with the given color at [point]. *)
Definition MoveTo (point : FPoint) (color : RGBA) (drawing : Drawing)
  : Drawing :=
  let path := {| Points := [] ++ [point]; Color := color |} in
  {| Paths := Paths drawing ++ [path] |}.

(** [LineTo] adds a point to the last path. *)
Definition LineTo (point : FPoint) (drawing : Drawing) : result Drawing :=
  let last := (Z.of_nat (length (Paths drawing)) - 1)%Z in
  bind (index (Paths drawing) last) (fun pa =>
  Ok {| Paths := set_nth (Paths drawing) (Z.to_nat last)
                   {| Points := Points pa ++ [point]; Color := Color pa |} |}).

(** A path or point function of [Traverse].  The source passes a pointer to
    the element and pointers to the extra arguments [s[1:]]; the function may
    write through any of them, so it maps the element and the extra
    arguments to their new values. *)
Definition fn (E S : Type) : Type := E -> S -> E * S.

Definition apply_fn {E S : Type} (f : option (fn E S)) (e : E) (s : S)
  : E * S :=
  match f with
  | Some g => g e s
  | None => (e, s)
  end.

(** The inner loop of [Traverse], over the points of one path. *)
Fixpoint Traverse_points {S : Type} (fpt : option (fn FPoint S))
    (pts : list FPoint) (s : S) : list FPoint * S :=
  match pts with
  | [] => ([], s)
  | q :: rest =>
    let '(q', s1) := apply_fn fpt q s in
    let '(rest', s2) := Traverse_points fpt rest s1 in
    (q' :: rest', s2)
  end.

(** The outer loop of [Traverse], over the paths. *)
Fixpoint Traverse_paths {S : Type} (fpa : option (fn Path S))
    (fpt : option (fn FPoint S)) (pas : list Path) (s : S)
  : list Path * S :=
  match pas with
  | [] => ([], s)
  | p :: rest =>
    let '(p1, s1) := apply_fn fpa p s in
    let '(pts, s2) := Traverse_points fpt (Points p1) s1 in
    let '(rest', s3) := Traverse_paths fpa fpt rest s2 in
    ({| Points := pts; Color := Color p1 |} :: rest', s3)
  end.

(** [Traverse] applies [fpa] to each path and [fpt] to each point of a
    drawing; either may be nil. *)
Definition Traverse {S : Type} (fpa : option (fn Path S))
    (fpt : option (fn FPoint S)) (s : S) (drawing : Drawing)
  : Drawing * S :=
  let '(pas, s') := Traverse_paths fpa fpt (Paths drawing) s in
  ({| Paths := pas |}, s').

(** Bounds point function. *)
Definition BoundsPt : fn FPoint FRect := fun p pb =>
  (p, {| Min := {| X := math_Min (X (Min pb)) (X p);
                   Y := math_Min (Y (Min pb)) (Y p) |};
         Max := {| X := math_Max (X (Max pb)) (X p);
                   Y := math_Max (Y (Max pb)) (Y p) |} |}).

(** [Bounds] extracts bounds from all points in a drawing. *)
Definition Bounds (drawing : Drawing) : result FRect :=
  bind (index (Paths drawing) 0) (fun pa0 =>
  bind (index (Points pa0) 0) (fun p0 =>
  let pb := {| Min := {| X := X p0; Y := Y p0 |};
               Max := {| X := X p0; Y := Y p0 |} |} in
  Ok (snd (Traverse None (Some BoundsPt) pb drawing)))).

(** Translate point function. *)
Definition TranslatePt : fn FPoint FPoint := fun p delta =>
  ({| X := X p + X delta; Y := Y p + Y delta |}, delta).

(** [Translate] all points by delta x and y. *)
Definition Translate (delta : FPoint) (drawing : Drawing) : Drawing :=
  fst (Traverse None (Some TranslatePt) delta drawing).

(** Scale point function. *)
Definition ScalePt : fn FPoint F := fun p scalar =>
  ({| X := X p * scalar; Y := Y p * scalar |}, scalar).

(** [Scale] all points by scalar. *)
Definition Scale (scalar : F) (drawing : Drawing) : Drawing :=
  fst (Traverse None (Some ScalePt) scalar drawing).

Definition ToRadians (degrees : F) : F := degrees * Pi_div_180.

(** Rotate point function; the extra arguments are the cosine and sine. *)
Definition RotatePt : fn FPoint (F * F) := fun p cs =>
  let rotx := (X p * fst cs) - (Y p * snd cs) in
  let roty := (X p * snd cs) + (Y p * fst cs) in
  ({| X := rotx; Y := roty |}, cs).

(** [Rotate] all points by angle. *)
Definition Rotate (angle : F) (drawing : Drawing) : Drawing :=
  let cos := math_Cos (ToRadians angle) in
  let sin := math_Sin (ToRadians angle) in
  fst (Traverse None (Some RotatePt) (cos, sin) drawing).

(** Vertical flip point function. *)
Definition VFlipPt : fn FPoint FRect := fun p db =>
  ({| X := X p; Y := Y (Max db) - Y p + Y (Min db) |}, db).

(** Horizontal flip point function. *)
Definition HFlipPt : fn FPoint FRect := fun p db =>
  ({| X := X (Max db) - X p + X (Min db); Y := Y p |}, db).

(** [Flip] all points on the vertical axis if [vert], else horizontal. *)
Definition Flip (vert : bool) (drawing : Drawing) : result Drawing :=
  bind (Bounds drawing) (fun db =>
  if vert
  then Ok (fst (Traverse None (Some VFlipPt) db drawing))
  else Ok (fst (Traverse None (Some HFlipPt) db drawing))).

(** The scale factor [CenterWithMargin] computes from the target bounds
    [tb], the margin [tm] and the drawing bounds [db]. *)
Definition CenterWithMargin_scale (tb : FRect) (tm : FPoint) (db : FRect)
  : F :=
  math_Min
    (((X (Max tb) - X (Min tb)) - (X tm * lit2 * (X (Max tb) - X (Min tb))))
       / (X (Max db) - X (Min db)))
    (((Y (Max tb) - Y (Min tb)) - (Y tm * lit2 * (Y (Max tb) - Y (Min tb))))
       / (Y (Max db) - Y (Min db))).

(** The translation [CenterWithMargin] applies after scaling by [scale]. *)
Definition CenterWithMargin_delta (tb : FRect) (db : FRect) (scale : F)
  : FPoint :=
  let db1 := {| Min := {| X := X (Min db) * scale; Y := Y (Min db) * scale |};
                Max := {| X := X (Max db) * scale; Y := Y (Max db) * scale |}
             |} in
  {| X := ((X (Max tb) + X (Min tb)) / lit2)
          - ((X (Max db1) + X (Min db1)) / lit2);
     Y := ((Y (Max tb) + Y (Min tb)) / lit2)
          - ((Y (Max db1) + Y (Min db1)) / lit2) |}.

(** [CenterWithMargin] scales and centers a drawing into [tb] with the
    margin [tm], given as a fraction of the bounds on each edge. *)
Definition CenterWithMargin (tb : FRect) (tm : FPoint) (drawing : Drawing)
  : result Drawing :=
  bind (Bounds drawing) (fun db =>
  let scale := CenterWithMargin_scale tb tm db in
  let drawing1 := Scale scale drawing in
  let delta := CenterWithMargin_delta tb db scale in
  Ok (Translate delta drawing1)).

(** [PointFromTheta] returns the point at angle [theta] (degrees) and
    distance [length] from [p0]. *)
Definition PointFromTheta (p0 : FPoint) (theta : F) (length : F) : FPoint :=
  {| X := length * math_Cos (ToRadians theta) + X p0;
     Y := length * math_Sin (ToRadians theta) + Y p0 |}.

End Generic.

Arguments FPoint F : clear implicits.
Arguments Path F : clear implicits.
Arguments Drawing F : clear implicits.
Arguments FRect F : clear implicits.

End drawing.

(* ===================================================================== *)
(** ** Package [lsys] *)
(* ===================================================================== *)

Module lsys.
Import color drawing.

(** The cases ['-', '+', '[', ']'] of the switch in [LSys]. *)
Definition is_control (v : rune) : bool :=
  (v =? rune_of "-"%char) || (v =? rune_of "+"%char)
  || (v =? rune_of "["%char) || (v =? rune_of "]"%char).

(** One turn of the inner loop of [LSys]: the switch on the rune [v], with
    [ns] the string built so far.  [inr] is the early return with an
    error. *)
Definition LSys_char (rules : gmap string string) (ns : string) (v : rune)
  : string + error :=
  if is_control v then inl (ns ++ string_of_rune v)%string
  else if v =? rune_of " "%char then inl ns
  else match rules !! string_of_rune v with
       | Some r => inl (ns ++ r)%string
       | None =>
         inr (errors_New ("no rule for: " ++ string_of_rune v)%string)
       end.

(** The inner loop of [LSys], [for _, v := range s]. *)
Fixpoint LSys_pass (rules : gmap string string) (vs : list rune)
    (ns : string) : string + error :=
  match vs with
  | [] => inl ns
  | v :: rest =>
    match LSys_char rules ns v with
    | inl ns' => LSys_pass rules rest ns'
    | inr err => inr err
    end
  end.

(** The outer loop of [LSys], run [n] more times from the string [s].  The
    named results are [(result, err)]; on the early return [result] still
    holds its zero value, the empty string. *)
Fixpoint LSys_levels (rules : gmap string string) (n : nat) (s : string)
  : string * option error :=
  match n with
  | O => (s, None)
  | S n' =>
    match LSys_pass rules (runes s) EmptyString with
    | inl ns => LSys_levels rules n' ns
    | inr err => (EmptyString, Some err)
    end
  end.

(** [LSys] - axiom: beginning string, rules: rewrite rules, level: number of
    rewrite iterations.  The loop [for i := 0; i < level; i++] runs [level]
    times, and not at all when [level <= 0]. *)
Definition LSys (axiom : string) (rules : gmap string string) (level : Z)
  : string * option error :=
  LSys_levels rules (Z.to_nat level) axiom.

Section Generic.
Context {F : Type} {ops : Float64 F} {mth : Math F}.
Local Open Scope f64_scope.

Record StackItem : Type := mkStackItem { Point : FPoint F; Theta : F }.

(** The variables of [DrawLSys] that its loop updates: the drawing behind
    [drw], the position [p], the heading [theta] and the branch [stack]. *)
Record turtle : Type := mkTurtle {
  v_drw : Drawing F;
  v_p : FPoint F;
  v_theta : F;
  v_stack : list StackItem
}.

(** One turn of the loop of [DrawLSys]: the switch on the rune [v]. *)
Definition DrawLSys_step (angle : F) (color : RGBA) (onePath : bool)
    (t : turtle) (v : rune) : result turtle :=
  if v =? rune_of "F"%char then
    (* draw forward *)
    let p := PointFromTheta (v_p t) (v_theta t) lit1 in
    bind (LineTo p (v_drw t)) (fun d =>
    Ok {| v_drw := d; v_p := p; v_theta := v_theta t;
          v_stack := v_stack t |})
  else if v =? rune_of "-"%char then
    (* turn left by angle *)
    Ok {| v_drw := v_drw t; v_p := v_p t; v_theta := v_theta t - angle;
          v_stack := v_stack t |}
  else if v =? rune_of "+"%char then
    (* turn right by angle *)
    Ok {| v_drw := v_drw t; v_p := v_p t; v_theta := v_theta t + angle;
          v_stack := v_stack t |}
  else if v =? rune_of "f"%char then
    (* move forward without drawing *)
    let p := PointFromTheta (v_p t) (v_theta t) lit1 in
    Ok {| v_drw := if negb onePath then MoveTo p color (v_drw t)
                   else v_drw t;
          v_p := p; v_theta := v_theta t; v_stack := v_stack t |}
  else if v =? rune_of "["%char then
    (* push current location and direction onto stack *)
    let se := {| Point := v_p t; Theta := v_theta t |} in
    Ok {| v_drw := v_drw t; v_p := v_p t; v_theta := v_theta t;
          v_stack := v_stack t ++ [se] |}
  else if v =? rune_of "]"%char then
    (* pop last location and direction from stack *)
    let n := (Z.of_nat (length (v_stack t)) - 1)%Z in
    bind (index (v_stack t) n) (fun se =>
    Ok {| v_drw := if negb onePath then MoveTo (Point se) color (v_drw t)
                   else v_drw t;
          v_p := Point se; v_theta := Theta se;
          v_stack := firstn (Z.to_nat n) (v_stack t) |})
  else Ok t.

(** The loop of [DrawLSys], [for _, v := range lSys]. *)
Fixpoint DrawLSys_loop (angle : F) (color : RGBA) (onePath : bool)
    (vs : list rune) (t : turtle) : result turtle :=
  match vs with
  | [] => Ok t
  | v :: rest =>
    bind (DrawLSys_step angle color onePath t v)
         (DrawLSys_loop angle color onePath rest)
  end.

(** The variables of [DrawLSys] when its loop is entered: the empty stack,
    [p] at the origin, and the first path opened there by [MoveTo]. *)
Definition DrawLSys_init (drw : Drawing F) (theta : F) (color : RGBA)
  : turtle :=
  let p := {| X := lit0; Y := lit0 |} in
  {| v_drw := MoveTo p color drw; v_p := p; v_theta := theta;
     v_stack := [] |}.

(** [DrawLSys] - drw: the drawing to draw into, lSys: the complete lsys
    string to draw, theta: the beginning angle, angle: the turn, color: the
    color of all paths, onePath: force a single path for the entire
    fractal.  The drawing is updated in place; the model returns it. *)
Definition DrawLSys (drw : Drawing F) (lSys : string) (theta : F)
    (angle : F) (color : RGBA) (onePath : bool) : result (Drawing F) :=
  bind (DrawLSys_loop angle color onePath (runes lSys)
          (DrawLSys_init drw theta color))
       (fun t => Ok (v_drw t)).

End Generic.

Arguments StackItem F : clear implicits.
Arguments turtle F : clear implicits.

End lsys.

(* ===================================================================== *)
(** ** The specification's reading of the operations *)
(* ===================================================================== *)

Module Spec.
Import color drawing lsys.

(** The fixed control symbols ['-', '+', '[', ']']. *)
Definition control (v : rune) : bool :=
  existsb (Z.eqb v) (map rune_of ["-"; "+"; "["; "]"]%char).

(** Whitespace characters: the Unicode White_Space property (horizontal
    tab, line feed, vertical tab, form feed, carriage return, space, next
    line, no-break space, and the space separators). *)
Definition whitespace (v : rune) : bool :=
  ((9 <=? v) && (v <=? 13)) || (v =? 32) || (v =? 133) || (v =? 160)
  || (v =? 5760) || ((8192 <=? v) && (v <=? 8202))
  || (v =? 8232) || (v =? 8233) || (v =? 8239) || (v =? 8287)
  || (v =? 12288).

(** The space character alone. *)
Definition space (v : rune) : bool := v =? rune_of " "%char.

(** What one character becomes in a pass: a control symbol stays, a
    character of the class [dropped] vanishes, any other is replaced by its
    mapped string; [None] when it has no entry. *)
Definition rewrite_char (dropped : rune -> bool)
    (rules : gmap string string) (v : rune) : option string :=
  if control v then Some (string_of_rune v)
  else if dropped v then Some EmptyString
  else rules !! string_of_rune v.

(** One pass: the images of the characters, in order, concatenated. *)
Fixpoint rewrite_pass (dropped : rune -> bool) (rules : gmap string string)
    (vs : list rune) : option string :=
  match vs with
  | [] => Some EmptyString
  | v :: rest =>
    match rewrite_char dropped rules v, rewrite_pass dropped rules rest with
    | Some s1, Some s2 => Some (s1 ++ s2)%string
    | _, _ => None
    end
  end.

(** [iterations] passes, each on the result of the one before. *)
Fixpoint Rewrite (dropped : rune -> bool) (axiom : string)
    (rules : gmap string string) (iterations : nat) : option string :=
  match iterations with
  | O => Some axiom
  | S n =>
    match Rewrite dropped axiom rules n with
    | Some s => rewrite_pass dropped rules (runes s)
    | None => None
    end
  end.

(** A pass meets an undefined symbol: after [i < iterations] passes the
    current string holds a character that is no control symbol, is not of
    the class [dropped], and has no entry in [rules]. *)
Definition meets_undefined (dropped : rune -> bool) (axiom : string)
    (rules : gmap string string) (iterations : nat) : Prop :=
  exists (i : nat) (s : string) (v : rune),
    (i < iterations)%nat
    /\ Rewrite dropped axiom rules i = Some s
    /\ In v (runes s)
    /\ control v = false
    /\ dropped v = false
    /\ rules !! string_of_rune v = None.

Section Generic.
Context {F : Type} {ops : Float64 F}.
Local Open Scope f64_scope.

(** Every point of a drawing, path by path. *)
Definition all_points (d : Drawing F) : list (FPoint F) :=
  concat (map Points (Paths d)).

(** The data model's invariant of a path: at least one point. *)
Definition well_formed (d : Drawing F) : Prop :=
  Forall (fun pa => Points pa <> []) (Paths d).

(** A drawing changed in its point coordinates only: every point replaced
    by its image under [f], paths, points and colors kept as they stand. *)
Definition map_points (f : FPoint F -> FPoint F) (d : Drawing F)
  : Drawing F :=
  {| Paths := map (fun pa => {| Points := map f (Points pa);
                                 Color := Color pa |}) (Paths d) |}.

(** The number of points and the color of each path, in order. *)
Definition shape (d : Drawing F) : list (nat * RGBA) :=
  map (fun pa => (length (Points pa), Color pa)) (Paths d).

(** What holds of the drawing throughout a run that started from [drw]:
    the paths of [drw] come first and are untouched, and right after them
    comes the path that [DrawLSys] opened at the origin. *)
Definition opened_at_origin (drw d : Drawing F) (color : RGBA) : Prop :=
  exists pts rest,
    Paths d =
    (Paths drw ++ {| Points := {| X := lit0; Y := lit0 |} :: pts;
                     Color := color |} :: rest)%list.


(** The first point of the first path, which [Bounds] starts from. *)
Definition first_pt (d : Drawing F) : option (FPoint F) :=
  match Paths d with
  | pa :: _ => match Points pa with p :: _ => Some p | [] => None end
  | [] => None
  end.







End Generic.




(** A [float64] that is no NaN, the order of [float64] ([<=] of Go), and a
    point within a rectangle in that order. *)
Definition number (x : float) : Prop := PrimFloat.is_nan x = false.

Definition le (x y : float) : Prop := PrimFloat.leb x y = true.

Definition inside (p : FPoint float) (r : FRect float) : Prop :=
  le (X (Min r)) (X p) /\ le (X p) (X (Max r))
  /\ le (Y (Min r)) (Y p) /\ le (Y p) (Y (Max r)).

(** The rectangle grown by [BoundsPt] to hold one more point. *)
Definition grow {F : Type} {ops : Float64 F} (pb : FRect F) (p : FPoint F)
  : FRect F := snd (BoundsPt p pb).

End Spec.

(* ===================================================================== *)
(** ** The rest of package [drawing]: angles and lengths *)
(* ===================================================================== *)

(** What the remaining functions ask of [float64]: the constants 90, 180
    and 270, the comparisons [==] and [>], [math.Sqrt], [math.Atan] and the
    constant [180.0 / math.Pi]. *)
Class Float64Ext (F : Type) : Type := {
  lit90 : F;
  lit180 : F;
  lit270 : F;
  f_eqb : F -> F -> bool;
  f_gtb : F -> F -> bool;
  math_Sqrt : F -> F;
  math_Atan : F -> F;
  c180_div_Pi : F
}.

Module binary64_ext.

(** [math.Atan] is a library routine outside the repository; the instance
    takes it as given.  [math.Sqrt] is the correctly rounded square root,
    and [180.0 / math.Pi] rounds to the double 0x1.ca5dc1a63c1f8p+5. *)
Definition ext (Atan : float -> float) : Float64Ext float := {|
  lit90 := 90%float;
  lit180 := 180%float;
  lit270 := 270%float;
  f_eqb := PrimFloat.eqb;
  f_gtb := fun x y => PrimFloat.ltb y x;
  math_Sqrt := PrimFloat.sqrt;
  math_Atan := Atan;
  c180_div_Pi := 0x1.ca5dc1a63c1f8p+5%float
|}.

End binary64_ext.

Module geometry.
Import color drawing.

Section Generic.
Context {F : Type} {ops : Float64 F} {mth : Math F} {ext : Float64Ext F}.
Local Open Scope f64_scope.

Definition ToDegrees (radians : F) : F := radians * c180_div_Pi.

(** [Length] returns the length of p0 to p1. *)
Definition Length (p0 p1 : FPoint F) : F :=
  math_Sqrt ((X p1 - X p0) * (X p1 - X p0) + (Y p1 - Y p0) * (Y p1 - Y p0)).

(** [ThetaFromPoint] returns the angle (degrees) from 2 points p0->p1. *)
Definition ThetaFromPoint (p0 p1 : FPoint F) : F :=
  let theta :=
    if f_eqb (X p1 - X p0) lit0 then
      (if f_gtb (Y p1) (Y p0) then lit90 else lit270)
    else ToDegrees (math_Atan ((Y p1 - Y p0) / (X p1 - X p0))) in
  if f_gtb (X p0) (X p1) then theta + lit180 else theta.

End Generic.

End geometry.

(* ===================================================================== *)
(** ** The rest of package [lsys]: the lookup by name *)
(* ===================================================================== *)

Module catalog.

Section Catalog.
(** The type [LFractal] and the table [fractals] are declared in another
    file of the package; the lookup reads the field [Name] only and returns
    the zero value [LFractal{}] when it finds nothing. *)
Variable LFractal : Type.
Variable Name : LFractal -> string.
Variable zero_LFractal : LFractal.
Variable fractals : list LFractal.

(** The loop [for _, f := range fractals] of [LsysByName]. *)
Fixpoint LsysByName_loop (fs : list LFractal) (name : string)
  : LFractal * option error :=
  match fs with
  | [] => (zero_LFractal,
           Some (errors_New ("No fractal by name: " ++ name)%string))
  | f :: rest =>
    if String.eqb (Name f) name then (f, None)
    else LsysByName_loop rest name
  end.

Definition LsysByName (name : string) : LFractal * option error :=
  LsysByName_loop fractals name.

End Catalog.

End catalog.

(* ===================================================================== *)
(** ** Notions used to state further properties *)
(* ===================================================================== *)

Module Notions.
Import color drawing lsys.

(** The first character of a pass that [LSys] cannot map: no control
    symbol, not the space, and without an entry in the rules. *)
Definition unmapped (rules : gmap string string) (v : rune) : bool :=
  negb (is_control v) && negb (v =? rune_of " "%char)
  && match rules !! string_of_rune v with Some _ => false | None => true end.

Definition first_unmapped (rules : gmap string string) (vs : list rune)
  : option rune := List.find (unmapped rules) vs.

(** The six symbols [DrawLSys] acts on. *)
Definition command (v : rune) : bool :=
  existsb (Z.eqb v) (map rune_of ["F"; "-"; "+"; "f"; "["; "]"]%char).

(** A closing bracket comes while no bracket is open; [depth] counts the
    brackets open at the start. *)
Fixpoint underflows (depth : nat) (vs : list rune) : bool :=
  match vs with
  | [] => false
  | v :: rest =>
    if v =? rune_of "["%char then underflows (S depth) rest
    else if v =? rune_of "]"%char then
      match depth with
      | O => true
      | S k => underflows k rest
      end
    else underflows depth rest
  end.

(** How often the symbol [c] occurs. *)
Definition occurrences (c : ascii) (vs : list rune) : nat :=
  count_occ Z.eq_dec vs (rune_of c).

(** The visits of [Traverse], in its order: each path, then its points. *)
Definition visits {F : Type} (d : Drawing F) : list (Path F + FPoint F) :=
  flat_map (fun pa => inl pa :: map inr (Points pa)) (Paths d).

(** Bytes that are control symbols or spaces, and the string without its
    spaces. *)
Definition control_or_space (b : ascii) : bool :=
  is_control (byte_val b) || (byte_val b =? rune_of " "%char).

Fixpoint only_control_or_space (s : string) : bool :=
  match s with
  | EmptyString => true
  | String b rest => control_or_space b && only_control_or_space rest
  end.

Fixpoint without_spaces (s : string) : string :=
  match s with
  | EmptyString => EmptyString
  | String b rest =>
    if byte_val b =? rune_of " "%char then without_spaces rest
    else String b (without_spaces rest)
  end.

(** A path as [DrawLSys] makes them: at least one point, and the color
    given to the call. *)
Definition made_path {F : Type} (color : RGBA) (pa : Path F) : Prop :=
  Points pa <> [] /\ Color pa = color.

(** The paths a symbol opens: one for [f] and for [']'], unless a single
    path is forced. *)
Definition paths_opened (onePath : bool) (vs : list rune) : nat :=
  if onePath then O
  else (occurrences "f" vs + occurrences "]" vs)%nat.

(** What one turn of the loop does to the drawing and to the depth of the
    stack. *)
Definition turn_effect {F : Type} {ops : Float64 F} (color : RGBA) (onePath : bool) (v : rune)
    (t t' : turtle F) : Prop :=
  Paths (v_drw t') <> []
  /\ length (Paths (v_drw t'))
     = (length (Paths (v_drw t)) + paths_opened onePath [v])%nat
  /\ length (Spec.all_points (v_drw t'))
     = (length (Spec.all_points (v_drw t)) + occurrences "F" [v]
        + paths_opened onePath [v])%nat
  /\ (length (v_stack t') + occurrences "]" [v]
      = length (v_stack t) + occurrences "[" [v])%nat
  /\ (Forall (made_path color) (Paths (v_drw t)) ->
      Forall (made_path color) (Paths (v_drw t'))).

End Notions.

(* ===================================================================== *)
(** ** The rewriter *)
(* ===================================================================== *)

Module RewriterFacts.
Import lsys.

Lemma append_assoc (a b c : string) :
  ((a ++ b) ++ c)%string = (a ++ (b ++ c))%string.
Proof.
  induction a as [|x t IH]; [reflexivity|].
  change (String x ((t ++ b) ++ c) = String x (t ++ (b ++ c)))%string.
  now rewrite IH.
Qed.

Lemma append_empty_r (a : string) : (a ++ EmptyString)%string = a.
Proof.
  induction a as [|x t IH]; [reflexivity|].
  change (String x (t ++ EmptyString) = String x t)%string.
  now rewrite IH.
Qed.

(** The switch of [LSys] and the specification single out the same four
    control symbols. *)
Lemma control_is_control (v : rune) : Spec.control v = is_control v.
Proof.
  unfold Spec.control, is_control; simpl.
  now rewrite orb_false_r, !orb_assoc.
Qed.

(** The switch on one rune, read through [Spec.rewrite_char]. *)
Lemma LSys_char_spec (rules : gmap string string) (ns : string) (v : rune) :
  match Spec.rewrite_char Spec.space rules v with
  | Some r => LSys_char rules ns v = inl (ns ++ r)%string
  | None => exists err, LSys_char rules ns v = inr err
  end.
Proof.
  unfold Spec.rewrite_char, LSys_char, Spec.space.
  rewrite control_is_control.
  destruct (is_control v); [reflexivity|].
  destruct (v =? rune_of " "%char).
  - now rewrite append_empty_r.
  - destruct (rules !! string_of_rune v); [reflexivity | eauto].
Qed.

(** The inner loop appends to [ns] what the pass makes of the runes. *)
Lemma LSys_pass_spec (rules : gmap string string) (vs : list rune) :
  forall ns : string,
  match Spec.rewrite_pass Spec.space rules vs with
  | Some s => LSys_pass rules vs ns = inl (ns ++ s)%string
  | None => exists err, LSys_pass rules vs ns = inr err
  end.
Proof.
  induction vs as [|v rest IH]; intros ns; simpl.
  - now rewrite append_empty_r.
  - pose proof (LSys_char_spec rules ns v) as Hc.
    destruct (Spec.rewrite_char Spec.space rules v) as [r|].
    + rewrite Hc. specialize (IH (ns ++ r)%string).
      destruct (Spec.rewrite_pass Spec.space rules rest) as [s|].
      * now rewrite IH, append_assoc.
      * exact IH.
    + destruct Hc as [err ->]. eauto.
Qed.

(** [Spec.Rewrite] adds its pass at the end, the loop of [LSys] performs it
    first: the two agree. *)
Lemma Rewrite_first_pass (dropped : rune -> bool)
    (rules : gmap string string) (n : nat) :
  forall axiom : string,
  Spec.Rewrite dropped axiom rules (S n) =
  match Spec.rewrite_pass dropped rules (runes axiom) with
  | Some s => Spec.Rewrite dropped s rules n
  | None => None
  end.
Proof.
  induction n as [|n IH]; intros axiom.
  - simpl. now destruct (Spec.rewrite_pass dropped rules (runes axiom)).
  - change (Spec.Rewrite dropped axiom rules (S (S n)))
      with (match Spec.Rewrite dropped axiom rules (S n) with
            | Some s => Spec.rewrite_pass dropped rules (runes s)
            | None => None
            end).
    rewrite IH.
    destruct (Spec.rewrite_pass dropped rules (runes axiom)) as [s|];
      reflexivity.
Qed.

Lemma LSys_levels_spec (rules : gmap string string) (n : nat) :
  forall axiom : string,
  match Spec.Rewrite Spec.space axiom rules n with
  | Some s => LSys_levels rules n axiom = (s, None)
  | None => exists err, LSys_levels rules n axiom = (EmptyString, Some err)
  end.
Proof.
  induction n as [|n IH]; intros axiom.
  - reflexivity.
  - rewrite Rewrite_first_pass.
    pose proof (LSys_pass_spec rules (runes axiom) EmptyString) as Hp.
    simpl LSys_levels.
    destruct (Spec.rewrite_pass Spec.space rules (runes axiom)) as [s|].
    + rewrite Hp. apply IH.
    + destruct Hp as [err ->]. eauto.
Qed.

(** C3 (as amended).  For every axiom, rule mapping and iteration count,
    [LSys] returns what [iterations] passes produce, where a pass maps the
    string character by character: the control symbols [-], [+], [[], []]
    stay, the space character U+0020 is dropped, every other character is
    replaced by its mapped string, inserted literally; when some character
    has no entry the call returns an error and the empty string.  With zero
    iterations the axiom is returned unchanged. *)
Theorem LSys_rewrites (axiom : string) (rules : gmap string string)
    (iterations : nat) :
  LSys axiom rules 0 = (axiom, None)
  /\ match Spec.Rewrite Spec.space axiom rules iterations with
     | Some s => LSys axiom rules (Z.of_nat iterations) = (s, None)
     | None => exists err,
         LSys axiom rules (Z.of_nat iterations) = (EmptyString, Some err)
     end.
Proof.
  split; [reflexivity|].
  unfold LSys. rewrite Nat2Z.id. apply LSys_levels_spec.
Qed.

(** The rules [F -> FF] and [TAB -> -]. *)
Example tab_rules_lookup :
  ((<["F" := "FF"]> (<[bytes [9] := "-"]> ∅)) : gmap string string)
    !! (bytes [9]) = Some "-".
Proof. reflexivity. Qed.

(** C3, the claim as stated, fails: a horizontal tab is a whitespace
    character, and [LSys] does not drop it.  On the axiom F TAB F with the
    rules [F -> FF] and [TAB -> -], dropping whitespace gives FFFF after one
    pass; the code looks the tab up like any other character and returns
    FF-FF. *)
Lemma LSys_keeps_tab :
  let axiom := bytes [70; 9; 70] in
  let rules : gmap string string :=
    <["F" := "FF"]> (<[bytes [9] := "-"]> ∅) in
  Spec.Rewrite Spec.whitespace axiom rules 1 = Some "FFFF"
  /\ LSys axiom rules 1 = ("FF-FF", None).
Proof. split; reflexivity. Qed.

Lemma rewrite_char_None (dropped : rune -> bool)
    (rules : gmap string string) (v : rune) :
  Spec.rewrite_char dropped rules v = None
  <-> Spec.control v = false /\ dropped v = false
      /\ rules !! string_of_rune v = None.
Proof.
  unfold Spec.rewrite_char.
  destruct (Spec.control v); [split; [discriminate | intros [? _]; discriminate]|].
  destruct (dropped v); [split; [discriminate | intros (_ & ? & _); discriminate]|].
  tauto.
Qed.

Lemma rewrite_pass_None (dropped : rune -> bool)
    (rules : gmap string string) (vs : list rune) :
  Spec.rewrite_pass dropped rules vs = None
  <-> exists v, In v vs /\ Spec.rewrite_char dropped rules v = None.
Proof.
  induction vs as [|v rest IH]; simpl.
  - split; [discriminate | intros (v & [] & _)].
  - destruct (Spec.rewrite_char dropped rules v) as [r|] eqn:Hv.
    + destruct (Spec.rewrite_pass dropped rules rest) as [s|].
      * split; [discriminate|].
        intros (w & [<- | Hin] & Hw); [congruence|].
        destruct IH as [_ IH]. discriminate IH. eauto.
      * split; [|reflexivity]. intros _.
        destruct IH as [IH _]. destruct (IH eq_refl) as (w & Hin & Hw).
        eauto.
    + split; [|reflexivity]. intros _. exists v. auto.
Qed.

(** The rewrite has no result exactly when some pass meets a character it
    cannot map. *)
Lemma Rewrite_None (dropped : rune -> bool) (axiom : string)
    (rules : gmap string string) (n : nat) :
  Spec.Rewrite dropped axiom rules n = None
  <-> Spec.meets_undefined dropped axiom rules n.
Proof.
  unfold Spec.meets_undefined.
  induction n as [|n IH].
  - split; [discriminate | intros (i & _ & _ & Hi & _); lia].
  - simpl Spec.Rewrite.
    destruct (Spec.Rewrite dropped axiom rules n) as [s|] eqn:Hn.
    + rewrite rewrite_pass_None. split.
      * intros (v & Hin & Hv). apply rewrite_char_None in Hv.
        exists n, s, v. repeat split; try tauto. lia.
      * intros (i & s' & v & Hi & Hr & Hin & Hv).
        destruct (Nat.eq_dec i n) as [-> | Hne].
        -- rewrite Hn in Hr. injection Hr as <-.
           exists v. split; [assumption|]. now apply rewrite_char_None.
        -- destruct IH as [_ IH]. discriminate IH.
           exists i, s', v. repeat split; try tauto. lia.
    + split; [|reflexivity]. intros _.
      destruct IH as [IH _].
      destruct (IH eq_refl) as (i & s' & v & Hi & Hrest).
      exists i, s', v. split; [lia | exact Hrest].
Qed.

(** C4 (as amended).  [LSys] returns an error if and only if some pass
    meets a character that is none of the control symbols [-], [+], [[],
    []], is not the space character U+0020, and has no entry in the rule
    mapping; and when it returns an error, the string it returns is empty:
    no partial result. *)
Theorem LSys_fails_iff (axiom : string) (rules : gmap string string)
    (iterations : nat) :
  (snd (LSys axiom rules (Z.of_nat iterations)) <> None
   <-> Spec.meets_undefined Spec.space axiom rules iterations)
  /\ (snd (LSys axiom rules (Z.of_nat iterations)) <> None
      -> fst (LSys axiom rules (Z.of_nat iterations)) = EmptyString).
Proof.
  pose proof (LSys_levels_spec rules iterations axiom) as H.
  unfold LSys. rewrite Nat2Z.id, <- Rewrite_None.
  destruct (Spec.Rewrite Spec.space axiom rules iterations) as [s|].
  - rewrite H. simpl. split; [split; intros; congruence | congruence].
  - destruct H as [err ->]. simpl.
    split; [split; [reflexivity | discriminate] | reflexivity].
Qed.

(** The specification's example: the Koch curve, one and two passes. *)
Example LSys_Koch :
  let rules : gmap string string := <["F" := "F+F--F+F"]> ∅ in
  LSys "F" rules 1 = ("F+F--F+F", None)
  /\ LSys "F" rules 2
     = ("F+F--F+F+F+F--F+F--F+F--F+F+F+F--F+F", None).
Proof. split; reflexivity. Qed.

(** The specification's example: axiom X, no rules, one pass. *)
Example LSys_X_no_rule :
  LSys "X" ∅ 1 = (EmptyString, Some (errors_New "no rule for: X")).
Proof. reflexivity. Qed.

(** C4, the claim as stated, fails: on the axiom made of one line feed,
    with no rules, [LSys] returns an error, yet the only character it met
    is whitespace. *)
Lemma LSys_fails_on_newline :
  snd (LSys (bytes [10]) ∅ 1)
    = Some (errors_New ("no rule for: " ++ bytes [10])%string)
  /\ ~ Spec.meets_undefined Spec.whitespace (bytes [10]) ∅ 1.
Proof.
  split; [reflexivity|].
  intros (i & s & v & Hi & Hr & Hin & _ & Hw & _).
  assert (i = O) as -> by lia.
  injection Hr as <-.
  destruct Hin as [<- | []].
  discriminate Hw.
Qed.

End RewriterFacts.

(* ===================================================================== *)
(** ** The drawing buffer: traversal, bounds and the frame of the
       transforms *)
(* ===================================================================== *)

Module DrawingFacts.
Import color drawing.

Section Generic.
Context {F : Type} {ops : Float64 F}.

Lemma index_nil {A : Type} : @index A [] 0 = Panic (index_out_of_range 0 0).
Proof. reflexivity. Qed.

Lemma index_cons {A : Type} (x : A) (l : list A) : index (x :: l) 0 = Ok x.
Proof.
  unfold index.
  destruct (Z.leb_spec (Z.of_nat (length (x :: l))) 0) as [H|H].
  - simpl length in H. lia.
  - reflexivity.
Qed.

Lemma path_eta (pa : Path F) :
  {| Points := Points pa; Color := Color pa |} = pa.
Proof. now destruct pa. Qed.

Lemma point_eta (p : FPoint F) : {| X := X p; Y := Y p |} = p.
Proof. now destruct p. Qed.

(** A point function that leaves the extra arguments alone makes
    [Traverse] a map over the points. *)
Lemma Traverse_points_map {S : Type} (f : fn (FPoint F) S)
    (g : FPoint F -> FPoint F) (s : S) :
  (forall p, f p s = (g p, s)) ->
  forall pts, Traverse_points (Some f) pts s = (map g pts, s).
Proof.
  intros Hf. induction pts as [|q rest IH]; simpl; [reflexivity|].
  now rewrite Hf, IH.
Qed.

Lemma Traverse_paths_map {S : Type} (f : fn (FPoint F) S)
    (g : FPoint F -> FPoint F) (s : S) :
  (forall p, f p s = (g p, s)) ->
  forall pas,
  Traverse_paths None (Some f) pas s =
  (map (fun pa => {| Points := map g (Points pa); Color := Color pa |}) pas,
   s).
Proof.
  intros Hf. induction pas as [|pa rest IH]; simpl; [reflexivity|].
  now rewrite (Traverse_points_map f g s Hf), IH.
Qed.

Lemma Traverse_map {S : Type} (f : fn (FPoint F) S)
    (g : FPoint F -> FPoint F) (s : S) (d : Drawing F) :
  (forall p, f p s = (g p, s)) ->
  Traverse None (Some f) s d = (Spec.map_points g d, s).
Proof.
  intros Hf. unfold Traverse, Spec.map_points.
  now rewrite (Traverse_paths_map f g s Hf).
Qed.

(** A point function that leaves the points alone makes [Traverse] a fold
    over all points, path after path. *)
Lemma Traverse_points_fold {S : Type} (f : fn (FPoint F) S)
    (h : S -> FPoint F -> S) :
  (forall p s, f p s = (p, h s p)) ->
  forall pts s, Traverse_points (Some f) pts s = (pts, fold_left h pts s).
Proof.
  intros Hf. induction pts as [|q rest IH]; intros s; simpl; [reflexivity|].
  now rewrite Hf, IH.
Qed.

Lemma Traverse_paths_fold {S : Type} (f : fn (FPoint F) S)
    (h : S -> FPoint F -> S) :
  (forall p s, f p s = (p, h s p)) ->
  forall pas s,
  Traverse_paths None (Some f) pas s =
  (pas, fold_left h (concat (map Points pas)) s).
Proof.
  intros Hf. induction pas as [|pa rest IH]; intros s; simpl; [reflexivity|].
  rewrite (Traverse_points_fold f h Hf), IH, path_eta.
  now rewrite fold_left_app.
Qed.

(** The rectangle [pb] grown to hold the point [p]. *)
Lemma BoundsPt_grows (p : FPoint F) (pb : FRect F) :
  BoundsPt p pb = (p, snd (BoundsPt p pb)).
Proof. reflexivity. Qed.

(** [Bounds] starts from the first point of the first path and grows the
    rectangle over every point. *)
Lemma Bounds_fold (d : Drawing F) (pa : Path F) (rest : list (Path F))
    (p0 : FPoint F) (pts : list (FPoint F)) :
  Paths d = pa :: rest -> Points pa = p0 :: pts ->
  Bounds d =
  Ok (fold_left Spec.grow (Spec.all_points d) {| Min := p0; Max := p0 |}).
Proof.
  intros Hd Hpa. unfold Bounds.
  rewrite Hd, index_cons. cbn [bind]. rewrite Hpa, index_cons. cbn [bind].
  rewrite !point_eta. unfold Traverse, Spec.all_points.
  rewrite (Traverse_paths_fold BoundsPt (fun pb p => snd (BoundsPt p pb)))
    by reflexivity.
  reflexivity.
Qed.

(** In a well-formed drawing that has a point, the first path has one. *)
Lemma first_point (d : Drawing F) :
  Spec.well_formed d -> Spec.all_points d <> [] ->
  exists pa rest p0 pts, Paths d = pa :: rest /\ Points pa = p0 :: pts.
Proof.
  unfold Spec.well_formed, Spec.all_points. intros Hwf Hne.
  destruct (Paths d) as [|pa rest]; [now elim Hne|].
  inversion Hwf as [|? ? Hpa _]; subst.
  destruct (Points pa) as [|p0 pts] eqn:E; [now elim Hpa|].
  now exists pa, rest, p0, pts.
Qed.

Lemma shape_map_points (f : FPoint F -> FPoint F) (d : Drawing F) :
  Spec.shape (Spec.map_points f d) = Spec.shape d.
Proof.
  unfold Spec.shape, Spec.map_points; simpl.
  rewrite map_map. apply map_ext. intros pa; simpl.
  now rewrite length_map.
Qed.

Lemma all_points_map_points (f : FPoint F -> FPoint F) (d : Drawing F) :
  Spec.all_points (Spec.map_points f d) = map f (Spec.all_points d).
Proof.
  unfold Spec.all_points, Spec.map_points; simpl.
  rewrite map_map; simpl. now rewrite concat_map, map_map.
Qed.

Lemma Translate_map (delta : FPoint F) (d : Drawing F) :
  Translate delta d =
  Spec.map_points
    (fun p => {| X := X p + X delta; Y := Y p + Y delta |}%f64) d.
Proof.
  unfold Translate.
  now rewrite (Traverse_map TranslatePt (fun p => fst (TranslatePt p delta))
                 delta d).
Qed.

Lemma Scale_map (scalar : F) (d : Drawing F) :
  Scale scalar d =
  Spec.map_points
    (fun p => {| X := X p * scalar; Y := Y p * scalar |}%f64) d.
Proof.
  unfold Scale.
  now rewrite (Traverse_map ScalePt (fun p => fst (ScalePt p scalar))
                 scalar d).
Qed.

Lemma Flip_map (vert : bool) (d : Drawing F) :
  Flip vert d =
  bind (Bounds d) (fun db =>
    Ok (Spec.map_points
          (fun p => if vert then fst (VFlipPt p db) else fst (HFlipPt p db))
          d)).
Proof.
  unfold Flip. destruct (Bounds d) as [db|e]; [|reflexivity]. simpl.
  destruct vert.
  - now rewrite (Traverse_map VFlipPt (fun p => fst (VFlipPt p db)) db d).
  - now rewrite (Traverse_map HFlipPt (fun p => fst (HFlipPt p db)) db d).
Qed.

(** C9.  [Bounds] on a drawing with zero paths, or with paths but zero
    points, fails: the index expression [drawing.Paths[0].Points[0]]
    panics, and no rectangle is returned. *)
Theorem Bounds_empty_fails (d : Drawing F) :
  Spec.all_points d = [] ->
  Bounds d = Panic (index_out_of_range 0 0).
Proof.
  unfold Spec.all_points, Bounds. intros He.
  destruct (Paths d) as [|pa rest]; [reflexivity|].
  rewrite index_cons. cbn [bind].
  simpl in He. apply app_eq_nil in He as [He _].
  now rewrite He.
Qed.

(** C10.  [Translate], [Scale] and [Flip] change point coordinates only:
    the result is the drawing with every point replaced by its image, so
    the paths, their order, the number and order of the points of each path
    and the colors are those of the input.  [Flip] either does so or,
    when [Bounds] panics, returns nothing. *)
Theorem transforms_keep_shape (d : Drawing F) :
  (forall delta, exists f,
      Translate delta d = Spec.map_points f d
      /\ Spec.shape (Translate delta d) = Spec.shape d)
  /\ (forall scalar, exists f,
      Scale scalar d = Spec.map_points f d
      /\ Spec.shape (Scale scalar d) = Spec.shape d)
  /\ (forall vert,
      match Flip vert d with
      | Ok d' => exists f,
          d' = Spec.map_points f d /\ Spec.shape d' = Spec.shape d
      | Panic e => Bounds d = Panic e
      end).
Proof.
  repeat split.
  - intros delta. eexists. rewrite Translate_map.
    split; [reflexivity | apply shape_map_points].
  - intros scalar. eexists. rewrite Scale_map.
    split; [reflexivity | apply shape_map_points].
  - intros vert. rewrite Flip_map.
    destruct (Bounds d) as [db|e]; simpl; [|reflexivity].
    eexists. split; [reflexivity | apply shape_map_points].
Qed.

End Generic.

(** C9 at a drawing with no path, and at one whose only path has no
    point. *)
Lemma Bounds_empty_fails_witness :
  Bounds (mkDrawing (F := float) []) = Panic (index_out_of_range 0 0)
  /\ Bounds (mkDrawing (F := float) [mkPath [] ColorBLACK])
     = Panic (index_out_of_range 0 0).
Proof.
  split.
  - apply (Bounds_empty_fails (mkDrawing [])). reflexivity.
  - apply (Bounds_empty_fails (mkDrawing [mkPath [] ColorBLACK])).
    reflexivity.
Defined.

End DrawingFacts.

(* ===================================================================== *)
(** ** The turtle interpreter *)
(* ===================================================================== *)

Module TurtleFacts.
Import color drawing lsys.
Local Open Scope list_scope.

Section Generic.
Context {F : Type} {ops : Float64 F} {mth : Math F}.

Lemma last_index {A : Type} (l : list A) (x : A) :
  (Z.of_nat (length (l ++ [x])) - 1)%Z = Z.of_nat (length l).
Proof. rewrite length_app; simpl; lia. Qed.

Lemma index_length {A : Type} (l : list A) (x : A) (r : list A) :
  index (l ++ x :: r) (Z.of_nat (length l)) = Ok x.
Proof.
  unfold index. rewrite length_app; simpl length.
  destruct (Z.ltb_spec (Z.of_nat (length l)) 0) as [H|_]; [lia|].
  destruct (Z.leb_spec (Z.of_nat (length l + S (length r)))
              (Z.of_nat (length l))) as [H|_]; [lia|].
  simpl. rewrite Nat2Z.id, nth_error_app2 by lia.
  now rewrite Nat.sub_diag.
Qed.

Lemma set_nth_length {A : Type} (l : list A) (x y : A) (r : list A) :
  set_nth (l ++ x :: r) (length l) y = (l ++ y :: r)%list.
Proof. induction l as [|z l IH]; simpl; [reflexivity | now rewrite IH]. Qed.

Lemma length_set_nth {A : Type} (l : list A) (i : nat) (y : A) :
  length (set_nth l i y) = length l.
Proof.
  revert i. induction l as [|z l IH]; intros [|i]; simpl; auto.
Qed.

Lemma firstn_length {A : Type} (l r : list A) :
  firstn (length l) (l ++ r) = l.
Proof. induction l as [|z l IH]; simpl; [now destruct r | now rewrite IH]. Qed.

(** [LineTo] extends the last path, whatever stands before it. *)
Lemma LineTo_last (q : FPoint F) (l : list (Path F)) (pa : Path F) :
  LineTo q {| Paths := l ++ [pa] |} =
  Ok {| Paths := l ++ [{| Points := Points pa ++ [q]; Color := Color pa |}] |}.
Proof.
  unfold LineTo. cbn [Paths]. rewrite last_index, index_length. cbn [bind].
  now rewrite Nat2Z.id, set_nth_length.
Qed.

Lemma snoc_cases {A : Type} (l : list A) :
  l = [] \/ exists l' x, l = (l' ++ [x])%list.
Proof.
  destruct l as [|a l]; [now left | right].
  destruct (exists_last (l := a :: l)) as (l' & x & E); [discriminate|].
  eauto.
Qed.

(** The loop over a concatenation runs the first part, then the second
    from the state reached. *)
Lemma DrawLSys_loop_app (angle : F) (color : RGBA) (onePath : bool)
    (vs ws : list rune) :
  forall t,
  DrawLSys_loop angle color onePath (vs ++ ws) t =
  bind (DrawLSys_loop angle color onePath vs t)
       (DrawLSys_loop angle color onePath ws).
Proof.
  induction vs as [|v vs IH]; intros t; simpl; [reflexivity|].
  destruct (DrawLSys_step angle color onePath t v); simpl; auto.
Qed.

Lemma MoveTo_opened (drw d : Drawing F) (color : RGBA) (q : FPoint F) :
  Spec.opened_at_origin drw d color ->
  Spec.opened_at_origin drw (MoveTo q color d) color.
Proof.
  intros (pts & rest & E). unfold MoveTo; cbn [Paths]. rewrite E.
  exists pts, (rest ++ [{| Points := [] ++ [q]; Color := color |}]).
  now rewrite <- app_assoc.
Qed.

Lemma LineTo_opened (drw d : Drawing F) (color : RGBA) (q : FPoint F) :
  Spec.opened_at_origin drw d color ->
  exists d', LineTo q d = Ok d'
             /\ Spec.opened_at_origin drw d' color
             /\ length (Paths d') = length (Paths d).
Proof.
  intros (pts & rest & E). destruct d as [pas]; cbn [Paths] in *.
  destruct (snoc_cases rest) as [-> | (rest' & pa & ->)].
  - subst pas. rewrite LineTo_last. eexists; split; [reflexivity|]. split.
    + exists (pts ++ [q]), []. reflexivity.
    + cbn [Paths]. now rewrite !length_app.
  - subst pas.
    rewrite app_comm_cons, app_assoc, LineTo_last.
    eexists; split; [reflexivity|]. split.
    + eexists pts, _. cbn [Paths]. now rewrite <- app_assoc.
    + cbn [Paths]. now rewrite !length_app.
Qed.

(** One turn of the loop either panics on [']'] with an empty stack, or
    keeps the drawing opened at the origin. *)
Lemma DrawLSys_step_cases (drw : Drawing F) (angle : F) (color : RGBA)
    (onePath : bool) (t : turtle F) (v : rune) :
  Spec.opened_at_origin drw (v_drw t) color ->
  (v = rune_of "]"%char /\ v_stack t = []
   /\ DrawLSys_step angle color onePath t v
      = Panic (index_out_of_range (-1) 0))
  \/ exists t', DrawLSys_step angle color onePath t v = Ok t'
       /\ Spec.opened_at_origin drw (v_drw t') color
       /\ (onePath = true ->
           length (Paths (v_drw t')) = length (Paths (v_drw t))).
Proof.
  intros Hinv. unfold DrawLSys_step.
  destruct (v =? rune_of "F"%char).
  { right.
    destruct (LineTo_opened drw (v_drw t) color
                (PointFromTheta (v_p t) (v_theta t) lit1) Hinv)
      as (d' & -> & Hd' & Hlen).
    cbn [bind]. eexists; split; [reflexivity|]. cbn [v_drw]. auto. }
  destruct (v =? rune_of "-"%char);
    [right; eexists; split; [reflexivity|]; cbn [v_drw]; auto|].
  destruct (v =? rune_of "+"%char);
    [right; eexists; split; [reflexivity|]; cbn [v_drw]; auto|].
  destruct (v =? rune_of "f"%char).
  { right; eexists; split; [reflexivity|]; cbn [v_drw].
    destruct onePath; cbn [negb]; split; auto using MoveTo_opened.
    discriminate. }
  destruct (v =? rune_of "["%char);
    [right; eexists; split; [reflexivity|]; cbn [v_drw]; auto|].
  destruct (Z.eqb_spec v (rune_of "]"%char)) as [Hv|_];
    [|right; eexists; split; [reflexivity|]; auto].
  destruct (snoc_cases (v_stack t)) as [E | (s & se & E)]; rewrite E.
  - left. auto.
  - right. rewrite last_index, index_length. cbn [bind].
    eexists; split; [reflexivity|]; cbn [v_drw].
    destruct onePath; cbn [negb]; split; auto using MoveTo_opened.
    discriminate.
Qed.

(** The invariant along the whole loop, for a run that returns. *)
Lemma DrawLSys_loop_opened (drw : Drawing F) (angle : F) (color : RGBA)
    (onePath : bool) (vs : list rune) :
  forall t t',
  Spec.opened_at_origin drw (v_drw t) color ->
  DrawLSys_loop angle color onePath vs t = Ok t' ->
  Spec.opened_at_origin drw (v_drw t') color
  /\ (onePath = true ->
      length (Paths (v_drw t')) = length (Paths (v_drw t))).
Proof.
  induction vs as [|v vs IH]; intros t t' Hinv Hrun; simpl in Hrun.
  - injection Hrun as <-. auto.
  - destruct (DrawLSys_step_cases drw angle color onePath t v Hinv)
      as [(_ & _ & E) | (t1 & E & Hinv1 & Hlen1)];
      rewrite E in Hrun; [discriminate|].
    cbn [bind] in Hrun.
    destruct (IH t1 t' Hinv1 Hrun) as [Hinv' Hlen'].
    split; [assumption|]. intros Ho. now rewrite Hlen', Hlen1.
Qed.

Lemma DrawLSys_init_opened (drw : Drawing F) (theta : F) (color : RGBA) :
  Spec.opened_at_origin drw (v_drw (DrawLSys_init drw theta color)) color.
Proof. exists [], []. reflexivity. Qed.

(** C2.  When the interpreter meets [']'] while the branch stack is empty,
    the interpretation fails: the index expression [stack[n]] with
    [n = -1] panics, the panic reaches the caller, and no drawing is
    returned.  Here [pre] holds the symbols before the [']'], and [t] the
    state they lead to. *)
Theorem DrawLSys_StackUnderflow (drw : Drawing F) (lSys : string)
    (theta angle : F) (color : RGBA) (onePath : bool)
    (pre post : list rune) (t : turtle F) :
  runes lSys = (pre ++ rune_of "]"%char :: post)%list ->
  DrawLSys_loop angle color onePath pre (DrawLSys_init drw theta color)
    = Ok t ->
  v_stack t = [] ->
  DrawLSys drw lSys theta angle color onePath
    = Panic (index_out_of_range (-1) 0).
Proof.
  intros Hs Hpre Hstack. unfold DrawLSys.
  rewrite Hs, DrawLSys_loop_app, Hpre. cbn [bind DrawLSys_loop].
  unfold DrawLSys_step. rewrite Hstack. reflexivity.
Qed.

(** C7.  With [onePath] set, a run that returns leaves exactly one path in
    a drawing that was empty: neither [f] nor [']'] opens a path. *)
Theorem DrawLSys_onePath (lSys : string) (theta angle : F) (color : RGBA)
    (d : Drawing F) :
  DrawLSys {| Paths := [] |} lSys theta angle color true = Ok d ->
  length (Paths d) = 1%nat.
Proof.
  unfold DrawLSys. intros Hrun.
  destruct (DrawLSys_loop angle color true (runes lSys)
              (DrawLSys_init {| Paths := [] |} theta color))
    as [t'|e] eqn:E; [|discriminate].
  cbn [bind] in Hrun. injection Hrun as <-.
  destruct (DrawLSys_loop_opened {| Paths := [] |} angle color true
              (runes lSys) _ t' (DrawLSys_init_opened _ theta color) E)
    as [_ Hlen].
  now rewrite Hlen.
Qed.

(** The first path of the result is the one opened at the origin. *)
Lemma DrawLSys_first_path (lSys : string) (theta angle : F) (color : RGBA)
    (onePath : bool) (d : Drawing F) :
  DrawLSys {| Paths := [] |} lSys theta angle color onePath = Ok d ->
  exists pts rest,
    Paths d = {| Points := {| X := lit0; Y := lit0 |} :: pts;
                 Color := color |} :: rest.
Proof.
  unfold DrawLSys. intros Hrun.
  destruct (DrawLSys_loop angle color onePath (runes lSys)
              (DrawLSys_init {| Paths := [] |} theta color))
    as [t'|e] eqn:E; [|discriminate].
  cbn [bind] in Hrun. injection Hrun as <-.
  destruct (DrawLSys_loop_opened {| Paths := [] |} angle color onePath
              (runes lSys) _ t' (DrawLSys_init_opened _ theta color) E)
    as [Hinv _].
  exact Hinv.
Qed.

(** The cases of the switch the branch example goes through. *)
Lemma step_draw (angle : F) (color : RGBA) (onePath : bool) (t : turtle F) :
  DrawLSys_step angle color onePath t (rune_of "F"%char) =
  bind (LineTo (PointFromTheta (v_p t) (v_theta t) lit1) (v_drw t))
    (fun d => Ok {| v_drw := d;
                    v_p := PointFromTheta (v_p t) (v_theta t) lit1;
                    v_theta := v_theta t; v_stack := v_stack t |}).
Proof. reflexivity. Qed.

Lemma step_draw_ok (drw : Drawing F) (angle : F) (color : RGBA)
    (onePath : bool) (t : turtle F) :
  Spec.opened_at_origin drw (v_drw t) color ->
  exists d,
    DrawLSys_step angle color onePath t (rune_of "F"%char) =
    Ok {| v_drw := d; v_p := PointFromTheta (v_p t) (v_theta t) lit1;
          v_theta := v_theta t; v_stack := v_stack t |}
    /\ Spec.opened_at_origin drw d color.
Proof.
  intros H. rewrite step_draw.
  destruct (LineTo_opened drw (v_drw t) color
              (PointFromTheta (v_p t) (v_theta t) lit1) H)
    as (d & -> & H' & _).
  exists d. split; [reflexivity | assumption].
Qed.

Lemma step_right (angle : F) (color : RGBA) (onePath : bool) (t : turtle F) :
  DrawLSys_step angle color onePath t (rune_of "+"%char) =
  Ok {| v_drw := v_drw t; v_p := v_p t;
        v_theta := (v_theta t + angle)%f64; v_stack := v_stack t |}.
Proof. reflexivity. Qed.

Lemma step_push (angle : F) (color : RGBA) (onePath : bool) (t : turtle F) :
  DrawLSys_step angle color onePath t (rune_of "["%char) =
  Ok {| v_drw := v_drw t; v_p := v_p t; v_theta := v_theta t;
        v_stack := v_stack t ++ [{| Point := v_p t; Theta := v_theta t |}] |}.
Proof. reflexivity. Qed.

Lemma step_pop (angle : F) (color : RGBA) (onePath : bool) (t : turtle F)
    (s : list (StackItem F)) (se : StackItem F) :
  v_stack t = s ++ [se] ->
  DrawLSys_step angle color onePath t (rune_of "]"%char) =
  Ok {| v_drw := if negb onePath then MoveTo (Point se) color (v_drw t)
                 else v_drw t;
        v_p := Point se; v_theta := Theta se; v_stack := s |}.
Proof.
  intros E. unfold DrawLSys_step.
  change (rune_of "]" =? rune_of "F") with false.
  change (rune_of "]" =? rune_of "-") with false.
  change (rune_of "]" =? rune_of "+") with false.
  change (rune_of "]" =? rune_of "f") with false.
  change (rune_of "]" =? rune_of "[") with false.
  change (rune_of "]" =? rune_of "]") with true.
  cbv iota. rewrite E, last_index, index_length. cbn [bind].
  now rewrite Nat2Z.id, firstn_length.
Qed.

Ltac draw_step drw H :=
  match goal with
  | |- context [DrawLSys_step ?a ?c ?o ?t (rune_of "F"%char)] =>
    let d := fresh "d" in
    let E := fresh "E" in
    let H' := fresh "H" in
    destruct (step_draw_ok drw a c o t H) as (d & E & H');
    rewrite !E; cbn [bind v_drw v_p v_theta v_stack]
  end.

(** C6.  On the string F[+F]F with [onePath] unset, the state right after
    the [']'] has the position, the heading (and the stack) of the state
    right before the ['['], as the very same values: [before] is the state
    after the prefix F, [after] the state after the prefix F[+F]; and the
    whole string is interpreted without a panic. *)
Theorem branch_restores (drw : Drawing F) (theta angle : F) (color : RGBA) :
  exists before after d,
    DrawLSys_loop angle color false (runes "F")
      (DrawLSys_init drw theta color) = Ok before
    /\ DrawLSys_loop angle color false (runes "F[+F]")
         (DrawLSys_init drw theta color) = Ok after
    /\ v_p after = v_p before
    /\ v_theta after = v_theta before
    /\ v_stack after = v_stack before
    /\ DrawLSys drw "F[+F]F" theta angle color false = Ok d.
Proof.
  unfold DrawLSys.
  change (runes "F") with (map rune_of ["F"]%char).
  change (runes "F[+F]") with (map rune_of ["F"; "["; "+"; "F"; "]"]%char).
  change (runes "F[+F]F")
    with (map rune_of ["F"; "["; "+"; "F"; "]"]%char
          ++ map rune_of ["F"]%char).
  rewrite DrawLSys_loop_app.
  cbn [map DrawLSys_loop].
  pose proof (DrawLSys_init_opened drw theta color) as H0.
  draw_step drw H0.
  rewrite !step_push. cbn [bind v_drw v_p v_theta v_stack].
  rewrite !step_right. cbn [bind v_drw v_p v_theta v_stack].
  draw_step drw H.
  erewrite !step_pop by reflexivity.
  cbn [bind v_drw v_p v_theta v_stack negb Point Theta].
  match goal with
  | |- context [MoveTo ?q color ?d1] =>
    pose proof (MoveTo_opened drw d1 color q H1) as H2
  end.
  draw_step drw H2.
  do 3 eexists. repeat split; reflexivity.
Qed.

End Generic.

(** *** The interpreter on IEEE doubles *)

Section Binary64.
Variables Cos Sin : float -> float.

(** What is known of [math.Cos] and [math.Sin] at zero. *)
Hypothesis Cos_0 : Cos 0%float = 1%float.
Hypothesis Sin_0 : Sin 0%float = 0%float.

(** C5.  Before any symbol is processed the drawing holds one path with
    the single point (0,0); the string F with start heading 0, any turn
    angle and [onePath] unset gives exactly one path with exactly the two
    points (0,0) and (1,0); and for every input string whose interpretation
    returns, the first path of the result starts at (0,0). *)
Theorem DrawLSys_F_from_origin :
  (forall (theta : float) color,
     v_drw (DrawLSys_init {| Paths := [] |} theta color)
     = {| Paths := [{| Points := [{| X := 0%float; Y := 0%float |}];
                       Color := color |}] |})
  /\ (forall angle color,
       DrawLSys (mth := binary64.math Cos Sin)
         {| Paths := [] |} "F" 0%float angle color false
       = Ok {| Paths := [{| Points := [{| X := 0%float; Y := 0%float |};
                                       {| X := 1%float; Y := 0%float |}];
                            Color := color |}] |})
  /\ (forall lSys theta angle color onePath d,
       DrawLSys (mth := binary64.math Cos Sin)
         {| Paths := [] |} lSys theta angle color onePath = Ok d ->
       exists pts rest,
         Paths d = {| Points := {| X := 0%float; Y := 0%float |} :: pts;
                      Color := color |} :: rest).
Proof.
  split; [reflexivity|]. split.
  - intros angle color. unfold DrawLSys.
    change (runes "F") with (map rune_of ["F"]%char).
    cbn [map DrawLSys_loop]. rewrite step_draw.
    unfold DrawLSys_init, MoveTo. cbn [v_drw v_p v_theta v_stack Paths].
    rewrite LineTo_last. cbn [bind DrawLSys_loop app Points Color v_drw].
    unfold PointFromTheta, ToRadians.
    cbn [X Y math_Cos math_Sin Pi_div_180 binary64.math
         mul add lit0 lit1 binary64.ops].
    replace (PrimFloat.mul 0 0x1.1df46a2529d39p-6) with 0%float
      by reflexivity.
    rewrite Cos_0, Sin_0. reflexivity.
  - intros lSys theta angle color onePath d Hrun.
    exact (DrawLSys_first_path (mth := binary64.math Cos Sin)
             lSys theta angle color onePath d Hrun).
Qed.

End Binary64.

(** C5 with polynomial stand-ins for cosine and sine. *)
Lemma DrawLSys_F_from_origin_witness :
  DrawLSys (mth := binary64.math binary64.cos_poly binary64.sin_poly)
    {| Paths := [] |} "F" 0%float 90%float ColorBLACK false
  = Ok {| Paths := [{| Points := [{| X := 0%float; Y := 0%float |};
                                  {| X := 1%float; Y := 0%float |}];
                       Color := ColorBLACK |}] |}.
Proof.
  exact (proj1 (proj2 (DrawLSys_F_from_origin
                         binary64.cos_poly binary64.sin_poly
                         eq_refl eq_refl))
           90%float ColorBLACK).
Defined.

(** C2 on the strings ] (the specification's example) and F[F]]F. *)
Lemma DrawLSys_StackUnderflow_witness :
  DrawLSys (mth := binary64.math binary64.cos_poly binary64.sin_poly)
    {| Paths := [] |} "]" 0%float 90%float ColorBLACK false
  = Panic (index_out_of_range (-1) 0)
  /\ DrawLSys (mth := binary64.math binary64.cos_poly binary64.sin_poly)
       {| Paths := [] |} "F[F]]F" 0%float 90%float ColorBLACK false
     = Panic (index_out_of_range (-1) 0).
Proof.
  split.
  - eapply (DrawLSys_StackUnderflow _ "]" _ _ _ _ [] []);
      reflexivity.
  - eapply (DrawLSys_StackUnderflow _ "F[F]]F" _ _ _ _
              (runes "F[F]") (runes "F"));
      [reflexivity | vm_compute; reflexivity | reflexivity].
Defined.

(** C7 on a string with a branch and a move. *)
Lemma DrawLSys_onePath_witness :
  exists d,
    DrawLSys (mth := binary64.math binary64.cos_poly binary64.sin_poly)
      {| Paths := [] |} "F[+F]fF" 0%float 90%float ColorBLACK true = Ok d
    /\ length (Paths d) = 1%nat.
Proof.
  eexists. split.
  - vm_compute. reflexivity.
  - eapply (DrawLSys_onePath
              (mth := binary64.math binary64.cos_poly binary64.sin_poly)
              "F[+F]fF" 0%float 90%float ColorBLACK).
    vm_compute. reflexivity.
Defined.

End TurtleFacts.

(* ===================================================================== *)
(** ** Integers in [float64] *)
(* ===================================================================== *)

(** Sums, differences, comparisons, [math.Min] and [math.Max] of doubles
    that are integers below [2^53] in magnitude are exact, when the result
    is below [2^53] as well.  Proved from the specification of the
    primitive floats ([SpecFloat]). *)
Module IntegerFacts.
Import binary64.

















Lemma int_sf_zero (n : Z) (s : bool) : int_sf n = S754_zero s -> n = 0 /\ s = false.
Proof. destruct n; cbn [int_sf]; intros H; inversion H; auto. Qed.















End IntegerFacts.

(* ===================================================================== *)
(** ** Coordinates, bounds and point maps *)
(* ===================================================================== *)

Module CoordFacts.
Import color drawing DrawingFacts.
Local Open Scope list_scope.

Section Generic.
Context {F : Type} {ops : Float64 F}.

Lemma first_pt_paths (d : Drawing F) (p0 : FPoint F) :
  Spec.first_pt d = Some p0 ->
  exists pa rest pts, Paths d = pa :: rest /\ Points pa = p0 :: pts.
Proof.
  unfold Spec.first_pt. destruct (Paths d) as [|pa rest]; [discriminate|].
  destruct (Points pa) as [|p pts] eqn:E; [discriminate|].
  intros H. injection H as ->. now exists pa, rest, pts.
Qed.

Lemma first_pt_all_points (d : Drawing F) (p0 : FPoint F) :
  Spec.first_pt d = Some p0 -> exists pts, Spec.all_points d = p0 :: pts.
Proof.
  intros H. destruct (first_pt_paths d p0 H) as (pa & rest & pts & Hd & Hpa).
  unfold Spec.all_points. rewrite Hd. cbn [map concat]. rewrite Hpa.
  cbn [app]. eauto.
Qed.

(** The components of the rectangle [Bounds] grows. *)
Lemma fold_grow (pts : list (FPoint F)) (pb : FRect F) :
  fold_left Spec.grow pts pb
  = {| Min := {| X := fold_left math_Min (map X pts) (X (Min pb));
                 Y := fold_left math_Min (map Y pts) (Y (Min pb)) |};
       Max := {| X := fold_left math_Max (map X pts) (X (Max pb));
                 Y := fold_left math_Max (map Y pts) (Y (Max pb)) |} |}.
Proof.
  revert pb. induction pts as [|p pts IH]; intros pb; cbn [map fold_left].
  - now destruct pb as [[? ?] [? ?]].
  - rewrite IH. reflexivity.
Qed.

(** [Bounds] returns exactly when the first path has a point, and then the
    minimum and the maximum of each coordinate over all points, taken from
    that first point on. *)
Lemma Bounds_first_pt (d : Drawing F) (p0 : FPoint F) :
  Spec.first_pt d = Some p0 ->
  Bounds d
  = Ok {| Min := {| X := fold_left math_Min (map X (Spec.all_points d)) (X p0);
                    Y := fold_left math_Min (map Y (Spec.all_points d)) (Y p0) |};
          Max := {| X := fold_left math_Max (map X (Spec.all_points d)) (X p0);
                    Y := fold_left math_Max (map Y (Spec.all_points d)) (Y p0) |}
       |}.
Proof.
  intros H. destruct (first_pt_paths d p0 H) as (pa & rest & pts & Hd & Hpa).
  rewrite (Bounds_fold d pa rest p0 pts Hd Hpa). now rewrite fold_grow.
Qed.

Lemma Bounds_no_first_pt (d : Drawing F) :
  Spec.first_pt d = None -> Bounds d = Panic (index_out_of_range 0 0).
Proof.
  unfold Spec.first_pt, Bounds.
  destruct (Paths d) as [|pa rest]; [reflexivity|].
  rewrite index_cons. cbn [bind].
  destruct (Points pa) as [|p pts]; [reflexivity | discriminate].
Qed.











Lemma Bounds_Ok_first_pt (d : Drawing F) (db : FRect F) :
  Bounds d = Ok db -> exists p0, Spec.first_pt d = Some p0.
Proof.
  intros H. destruct (Spec.first_pt d) as [p0|] eqn:E; [eauto|].
  rewrite (Bounds_no_first_pt d E) in H. discriminate.
Qed.




End Generic.

End CoordFacts.

(* ===================================================================== *)
(** ** The transforms on [float64] *)
(* ===================================================================== *)

Module Binary64Facts.
Import color drawing DrawingFacts CoordFacts IntegerFacts.
Local Open Scope list_scope.

(** *** Minimum and maximum over a list of integers *)




(** *** [math.Min] and [math.Max] over a list of integer doubles *)





(** *** [Flip] on integral coordinates *)






(** *** [CenterWithMargin] *)

Lemma SFadd_comm (x y : spec_float) :
  SFadd prec emax x y = SFadd prec emax y x.
Proof.
  destruct x as [sx|sx| |sx mx ex], y as [sy|sy| |sy my ey];
    cbn [SFadd]; try reflexivity; try (destruct sx, sy; reflexivity).
  now rewrite (Z.min_comm ex ey), Z.add_comm.
Qed.

(** Addition on [float64] is commutative. *)
Lemma add_comm (x y : float) : (x + y)%float = (y + x)%float.
Proof.
  apply Prim2SF_inj. rewrite !FloatAxioms.add_spec. apply SFadd_comm.
Qed.




End Binary64Facts.


(* ===================================================================== *)
(** ** More on the rewriter and the lookup by name *)
(* ===================================================================== *)

Module RewriterMore.
Import lsys.

Lemma LSys_levels_add (rules : gmap string string) (n m : nat) :
  forall axiom : string,
  LSys_levels rules (n + m) axiom =
  match LSys_levels rules n axiom with
  | (s, None) => LSys_levels rules m s
  | (_, Some err) => (EmptyString, Some err)
  end.
Proof.
  induction n as [|n IH]; intros axiom; [reflexivity|].
  cbn [Nat.add LSys_levels].
  destruct (LSys_pass rules (runes axiom) EmptyString) as [ns|err];
    [apply IH | reflexivity].
Qed.

(** X1.  Rewriting composes: [n + m] levels are [n] levels followed by [m]
    levels on their result, and an error of the first [n] levels is the
    error of the whole, with the empty string. *)
Theorem LSys_compose (axiom : string) (rules : gmap string string)
    (n m : nat) :
  LSys axiom rules (Z.of_nat (n + m)) =
  match LSys axiom rules (Z.of_nat n) with
  | (s, None) => LSys s rules (Z.of_nat m)
  | (_, Some err) => (EmptyString, Some err)
  end.
Proof. unfold LSys. rewrite !Nat2Z.id. apply LSys_levels_add. Qed.

(** The inner loop stops at the first character it cannot map and names it
    in the error. *)
Lemma LSys_pass_error (rules : gmap string string) (vs : list rune) :
  forall ns : string,
  match Notions.first_unmapped rules vs with
  | Some v =>
    LSys_pass rules vs ns
    = inr (errors_New ("no rule for: " ++ string_of_rune v)%string)
  | None => exists s, LSys_pass rules vs ns = inl s
  end.
Proof.
  unfold Notions.first_unmapped.
  induction vs as [|v rest IH]; intros ns; cbn [find LSys_pass]; [eauto|].
  unfold Notions.unmapped at 1, LSys_char.
  destruct (is_control v); cbn [negb andb]; [apply IH|].
  destruct (v =? rune_of " "%char); cbn [negb andb]; [apply IH|].
  destruct (rules !! string_of_rune v); [apply IH | reflexivity].
Qed.

Lemma LSys_levels_error (rules : gmap string string) (n : nat) :
  forall (axiom r : string) (err : error),
  LSys_levels rules n axiom = (r, Some err) ->
  r = EmptyString
  /\ exists (i : nat) (s : string) (v : rune),
       (i < n)%nat
       /\ LSys_levels rules i axiom = (s, None)
       /\ Notions.first_unmapped rules (runes s) = Some v
       /\ err = errors_New ("no rule for: " ++ string_of_rune v)%string.
Proof.
  induction n as [|n IH]; intros axiom r err H; [discriminate|].
  cbn [LSys_levels] in H.
  pose proof (LSys_pass_error rules (runes axiom) EmptyString) as Hp.
  destruct (Notions.first_unmapped rules (runes axiom)) as [v|] eqn:Hv.
  - rewrite Hp in H. injection H as <- <-. split; [reflexivity|].
    exists O, axiom, v. repeat split; [lia | assumption].
  - destruct Hp as [ns Hns]. rewrite Hns in H.
    destruct (IH ns r err H) as (-> & i & s & v & Hi & Hs & Hf & ->).
    split; [reflexivity|].
    exists (S i), s, v. cbn [LSys_levels]. rewrite Hns.
    repeat split; [lia | assumption | assumption].
Qed.

(** X2.  When [LSys] returns an error, the string it returns is empty and
    the error names one character: the first one, in reading order, of the
    first pass that meets a character with no rule (no control symbol, not
    the space).  The passes before that one went through. *)
Theorem LSys_error_names_first (axiom : string) (rules : gmap string string)
    (n : nat) (r : string) (err : error) :
  LSys axiom rules (Z.of_nat n) = (r, Some err) ->
  r = EmptyString
  /\ exists (i : nat) (s : string) (v : rune),
       (i < n)%nat
       /\ LSys axiom rules (Z.of_nat i) = (s, None)
       /\ Notions.first_unmapped rules (runes s) = Some v
       /\ err = errors_New ("no rule for: " ++ string_of_rune v)%string.
Proof.
  unfold LSys. rewrite Nat2Z.id. intros H.
  destruct (LSys_levels_error rules n axiom r err H)
    as (-> & i & s & v & Hi & Hs & Hf & ->).
  split; [reflexivity|]. exists i, s, v. rewrite Nat2Z.id. auto.
Qed.

(** X2 on the axiom F with the rules [F -> F+XY]: the first pass goes
    through, the second stops at X (and never looks at Y). *)
Lemma LSys_error_names_first_witness :
  let rules : gmap string string := <["F" := "F+XY"]> ∅ in
  exists (i : nat) (s : string) (v : rune),
    (i < 2)%nat
    /\ LSys "F" rules (Z.of_nat i) = (s, None)
    /\ Notions.first_unmapped rules (runes s) = Some v
    /\ errors_New "no rule for: X"
       = errors_New ("no rule for: " ++ string_of_rune v)%string.
Proof.
  intros rules.
  exact (proj2 (LSys_error_names_first "F" rules 2 EmptyString
                  (errors_New "no rule for: X") eq_refl)).
Defined.

Lemma byte_of_byte_val (b : ascii) : byte_of (byte_val b) = b.
Proof.
  unfold byte_of, byte_val. now rewrite N2Z.id, ascii_N_embedding.
Qed.

Lemma control_or_space_ascii (b : ascii) :
  Notions.control_or_space b = true -> (byte_val b <? 128) = true.
Proof.
  unfold Notions.control_or_space, is_control. intros H.
  apply Z.ltb_lt.
  repeat (apply orb_true_iff in H as [H|H]);
    apply Z.eqb_eq in H; rewrite H; reflexivity.
Qed.

Lemma runes_ascii (b : ascii) (rest : string) :
  (byte_val b <? 128) = true ->
  runes (String b rest) = byte_val b :: runes rest.
Proof. intros H. cbn [runes]. now rewrite H. Qed.

Lemma string_of_rune_ascii (b : ascii) :
  (byte_val b <? 128) = true ->
  string_of_rune (byte_val b) = String b EmptyString.
Proof.
  intros H. unfold string_of_rune. rewrite H.
  assert ((0 <=? byte_val b) = true) as ->
    by (apply Z.leb_le; unfold byte_val; lia).
  cbn. now rewrite byte_of_byte_val.
Qed.

(** On control symbols and spaces the inner loop keeps the former, drops
    the latter, and does not look at the rules. *)
Lemma LSys_pass_control_or_space (rules : gmap string string) (s : string) :
  Notions.only_control_or_space s = true ->
  forall ns : string,
  LSys_pass rules (runes s) ns = inl (ns ++ Notions.without_spaces s)%string.
Proof.
  induction s as [|b rest IH]; intros H ns; cbn in H.
  - cbn. now rewrite RewriterFacts.append_empty_r.
  - apply andb_true_iff in H as [Hb Hrest].
    pose proof (control_or_space_ascii b Hb) as Hlt.
    rewrite (runes_ascii b rest Hlt). cbn [LSys_pass Notions.without_spaces].
    unfold LSys_char. unfold Notions.control_or_space in Hb.
    destruct (is_control (byte_val b)) eqn:Hc.
    + assert ((byte_val b =? rune_of " "%char) = false) as ->.
      { unfold is_control in Hc. apply Z.eqb_neq. intros E.
        rewrite E in Hc. discriminate Hc. }
      rewrite (string_of_rune_ascii b Hlt), (IH Hrest).
      now rewrite RewriterFacts.append_assoc.
    + cbn in Hb. rewrite Hb. apply (IH Hrest).
Qed.

Lemma without_spaces_fixed (s : string) :
  Notions.only_control_or_space s = true ->
  Notions.only_control_or_space (Notions.without_spaces s) = true
  /\ Notions.without_spaces (Notions.without_spaces s)
     = Notions.without_spaces s.
Proof.
  induction s as [|b rest IH]; intros H; cbn in H; [split; reflexivity|].
  apply andb_true_iff in H as [Hb Hrest].
  destruct (IH Hrest) as [IH1 IH2].
  cbn [Notions.without_spaces].
  destruct (byte_val b =? rune_of " "%char) eqn:E; [now split|].
  cbn [Notions.only_control_or_space Notions.without_spaces].
  now rewrite Hb, IH1, E, IH2.
Qed.

(** X3.  A string made of control symbols and spaces only needs no rules:
    with any rule mapping, one pass or more returns the string without its
    spaces, and never an error. *)
Theorem LSys_control_or_space (s : string) (rules : gmap string string)
    (n : nat) :
  Notions.only_control_or_space s = true ->
  LSys s rules (Z.of_nat (S n)) = (Notions.without_spaces s, None).
Proof.
  unfold LSys. rewrite Nat2Z.id. revert s.
  induction n as [|n IH]; intros s H.
  - cbn [LSys_levels]. now rewrite (LSys_pass_control_or_space rules s H).
  - change (LSys_levels rules (S (S n)) s)
      with (match LSys_pass rules (runes s) EmptyString with
            | inl ns => LSys_levels rules (S n) ns
            | inr err => (EmptyString, Some err)
            end).
    rewrite (LSys_pass_control_or_space rules s H).
    destruct (without_spaces_fixed s H) as [H1 H2].
    change (EmptyString ++ Notions.without_spaces s)%string
      with (Notions.without_spaces s).
    now rewrite (IH _ H1), H2.
Qed.

(** X3 on the string "[ + ] - -" with no rules, three passes. *)
Lemma LSys_control_or_space_witness :
  LSys "[ + ] - -" ∅ 3 = ("[+]--", None).
Proof.
  exact (LSys_control_or_space "[ + ] - -" ∅ 2 eq_refl).
Defined.

End RewriterMore.

Module CatalogFacts.
Import catalog.
Local Open Scope list_scope.

Section Catalog.
Variable LFractal : Type.
Variable Name : LFractal -> string.
Variable zero_LFractal : LFractal.

Lemma loop_found (name : string) (fs : list LFractal) (f : LFractal) :
  LsysByName_loop LFractal Name zero_LFractal fs name = (f, None)
  <-> exists pre post,
        fs = pre ++ f :: post /\ Name f = name
        /\ Forall (fun g => Name g <> name) pre.
Proof.
  induction fs as [|g rest IH]; cbn [LsysByName_loop].
  - split; [discriminate|]. intros (pre & post & E & _).
    now destruct pre.
  - destruct (String.eqb_spec (Name g) name) as [Hg|Hg].
    + split.
      * intros H. injection H as <-. exists [], rest. auto.
      * intros (pre & post & E & Hf & Hpre). destruct pre as [|h pre].
        -- now injection E as <- _.
        -- injection E as -> _. inversion Hpre; contradiction.
    + rewrite IH. split.
      * intros (pre & post & -> & Hf & Hpre). exists (g :: pre), post. auto.
      * intros (pre & post & E & Hf & Hpre). destruct pre as [|h pre].
        -- injection E as <- _. contradiction.
        -- injection E as _ ->. inversion Hpre; subst. eauto.
Qed.

Lemma loop_missing (name : string) (fs : list LFractal) :
  (snd (LsysByName_loop LFractal Name zero_LFractal fs name) <> None
   <-> Forall (fun g => Name g <> name) fs)
  /\ (snd (LsysByName_loop LFractal Name zero_LFractal fs name) <> None ->
      LsysByName_loop LFractal Name zero_LFractal fs name
      = (zero_LFractal,
         Some (errors_New ("No fractal by name: " ++ name)%string))).
Proof.
  induction fs as [|g rest [IH1 IH2]]; cbn [LsysByName_loop].
  - split; [split; [constructor | discriminate] | reflexivity].
  - destruct (String.eqb_spec (Name g) name) as [Hg|Hg]; cbn [snd].
    + split; [split; [congruence|] | congruence].
      intros H. inversion H; contradiction.
    + split; [|exact IH2]. rewrite IH1. split.
      * now constructor.
      * intros H. now inversion H.
Qed.

(** X4.  [LsysByName] returns, without error, the first entry of the table
    whose name is the one asked for, and only that; it returns an error
    exactly when no entry has the name, and then the error reads
    "No fractal by name: " followed by the name and the fractal returned is
    the zero value. *)
Theorem LsysByName_first_match (fractals : list LFractal) (name : string) :
  (forall f,
     LsysByName LFractal Name zero_LFractal fractals name = (f, None)
     <-> exists pre post,
           fractals = pre ++ f :: post /\ Name f = name
           /\ Forall (fun g => Name g <> name) pre)
  /\ (snd (LsysByName LFractal Name zero_LFractal fractals name) <> None
      <-> Forall (fun g => Name g <> name) fractals)
  /\ (snd (LsysByName LFractal Name zero_LFractal fractals name) <> None ->
      LsysByName LFractal Name zero_LFractal fractals name
      = (zero_LFractal,
         Some (errors_New ("No fractal by name: " ++ name)%string))).
Proof.
  unfold LsysByName. split; [intros f; apply loop_found|].
  apply loop_missing.
Qed.

End Catalog.

End CatalogFacts.

(* ===================================================================== *)
(** ** More on the drawing buffer and the interpreter *)
(* ===================================================================== *)

Module BufferMore.
Import color drawing DrawingFacts TurtleFacts.
Local Open Scope list_scope.

Section Generic.
Context {F : Type} {ops : Float64 F}.

Lemma all_points_snoc (l : list (Path F)) (pa : Path F) :
  Spec.all_points {| Paths := l ++ [pa] |}
  = Spec.all_points {| Paths := l |} ++ Points pa.
Proof.
  unfold Spec.all_points; cbn [Paths].
  rewrite map_app, concat_app. cbn. now rewrite app_nil_r.
Qed.

Lemma all_points_MoveTo (q : FPoint F) (c : RGBA) (d : Drawing F) :
  Spec.all_points (MoveTo q c d) = Spec.all_points d ++ [q].
Proof.
  unfold MoveTo. rewrite all_points_snoc. now destruct d.
Qed.

Lemma length_Paths_MoveTo (q : FPoint F) (c : RGBA) (d : Drawing F) :
  length (Paths (MoveTo q c d)) = S (length (Paths d)).
Proof. unfold MoveTo; cbn [Paths]. rewrite length_app; cbn; lia. Qed.

(** [LineTo] on a drawing that has a path: the point goes to the end of
    the last path. *)
Lemma LineTo_some (q : FPoint F) (d : Drawing F) :
  Paths d <> [] ->
  exists l pa,
    Paths d = l ++ [pa]
    /\ LineTo q d
       = Ok {| Paths := l ++ [{| Points := Points pa ++ [q];
                                 Color := Color pa |}] |}.
Proof.
  intros Hne. destruct d as [pas]; cbn [Paths] in *.
  destruct (snoc_cases pas) as [-> | (l & pa & ->)]; [contradiction|].
  exists l, pa. split; [reflexivity | apply LineTo_last].
Qed.

(** X5.  [MoveTo] and [LineTo] both put the point at the end of the
    sequence of all points; [MoveTo] does so in a new last path and never
    fails, [LineTo] in the last path there is, keeping the number of paths,
    and it panics (index -1) when the drawing has no path yet. *)
Theorem MoveTo_LineTo_append (q : FPoint F) (c : RGBA) (d : Drawing F) :
  Spec.all_points (MoveTo q c d) = Spec.all_points d ++ [q]
  /\ length (Paths (MoveTo q c d)) = S (length (Paths d))
  /\ match Paths d with
     | [] => LineTo q d = Panic (index_out_of_range (-1) 0)
     | _ :: _ =>
       exists d', LineTo q d = Ok d'
                  /\ Spec.all_points d' = Spec.all_points d ++ [q]
                  /\ length (Paths d') = length (Paths d)
     end.
Proof.
  split; [apply all_points_MoveTo|]. split; [apply length_Paths_MoveTo|].
  destruct d as [pas]; cbn [Paths].
  destruct (snoc_cases pas) as [-> | (l & pa & ->)]; [reflexivity|].
  destruct (l ++ [pa]) as [|pa0 rest] eqn:E;
    [now apply app_eq_nil in E as [_ E]|].
  rewrite <- E, LineTo_last.
  eexists. split; [reflexivity|].
  rewrite !all_points_snoc. cbn [Points Paths].
  split; [now rewrite app_assoc | now rewrite !length_app].
Qed.

(** Whatever the point function, [Traverse] returns the paths with as many
    points each, and the colors they had. *)
(** X6.  [Rotate] changes point coordinates only: with the cosine [c] and
    the sine [s] of the angle, computed once, every point [(x, y)] becomes
    [(x * c - y * s, x * s + y * c)]; the paths, the number of points of
    each path and the colors are kept. *)
Theorem Rotate_keeps_shape {mth : Math F} (angle : F) (d : Drawing F) :
  let c := math_Cos (ToRadians angle) in
  let s := math_Sin (ToRadians angle) in
  Rotate angle d
  = Spec.map_points
      (fun p => {| X := X p * c - Y p * s; Y := X p * s + Y p * c |}%f64) d
  /\ Spec.shape (Rotate angle d) = Spec.shape d.
Proof.
  intros c s.
  assert (Rotate angle d
          = Spec.map_points
              (fun p => {| X := X p * c - Y p * s;
                           Y := X p * s + Y p * c |}%f64) d) as H.
  { unfold Rotate. fold c s.
    now rewrite (Traverse_map RotatePt
                   (fun p => {| X := X p * c - Y p * s;
                                Y := X p * s + Y p * c |}%f64) (c, s) d). }
  split; [exact H|]. rewrite H. apply shape_map_points.
Qed.

(** A path function and a point function that leave what they visit as it
    is turn [Traverse] into a fold over its visits. *)
Lemma Traverse_points_visits {S : Type} (hp : S -> FPoint F -> S)
    (fpt : fn (FPoint F) S) :
  (forall p s, fpt p s = (p, hp s p)) ->
  forall pts s,
  Traverse_points (Some fpt) pts s = (pts, fold_left hp pts s).
Proof.
  intros Hf. induction pts as [|q rest IH]; intros s; cbn; [reflexivity|].
  now rewrite Hf, IH.
Qed.

Lemma fold_left_inr {A B S : Type} (h : S -> A + B -> S) (l : list B) :
  forall s, fold_left h (map inr l) s = fold_left (fun s b => h s (inr b)) l s.
Proof. induction l as [|b l IH]; intros s; cbn; [reflexivity | apply IH]. Qed.

(** X7.  [Traverse] visits the paths in order, each path through the path
    function first and its points, in order, through the point function
    next: for functions that only read what they visit, the extra arguments
    end up as the fold over that sequence of visits, and the drawing is
    returned as it was. *)
Theorem Traverse_in_order {S : Type} (h : S -> Path F + FPoint F -> S)
    (fpa : fn (Path F) S) (fpt : fn (FPoint F) S) (s : S) (d : Drawing F) :
  (forall pa s, fpa pa s = (pa, h s (inl pa))) ->
  (forall p s, fpt p s = (p, h s (inr p))) ->
  Traverse (Some fpa) (Some fpt) s d
  = (d, fold_left h (Notions.visits d) s).
Proof.
  intros Hpa Hpt. destruct d as [pas]. unfold Traverse, Notions.visits.
  cbn [Paths].
  assert (forall s0, Traverse_paths (Some fpa) (Some fpt) pas s0
                     = (pas, fold_left h
                               (flat_map (fun pa => inl pa :: map inr (Points pa))
                                  pas) s0)) as H.
  { induction pas as [|pa rest IH]; intros s0; cbn [Traverse_paths flat_map];
      [reflexivity|].
    cbn [apply_fn]. rewrite Hpa.
    rewrite (Traverse_points_visits (fun s p => h s (inr p)) fpt Hpt).
    rewrite IH, path_eta. cbn [app fold_left].
    now rewrite fold_left_app, fold_left_inr. }
  now rewrite H.
Qed.

End Generic.

(** X7 with functions that count the paths and the points they visit. *)
Lemma Traverse_in_order_witness :
  let d : Drawing float :=
    {| Paths := [{| Points := [{| X := 0; Y := 0 |}; {| X := 1; Y := 0 |}];
                    Color := ColorRED |};
                 {| Points := [{| X := 2; Y := 2 |}];
                    Color := ColorBLUE |}] |}%float in
  let h := fun (s : nat * nat) (e : Path float + FPoint float) =>
             match e with
             | inl _ => (S (fst s), snd s)
             | inr _ => (fst s, S (snd s))
             end in
  Traverse (Some (fun pa s => (pa, h s (inl pa))))
           (Some (fun p s => (p, h s (inr p)))) (O, O) d
  = (d, fold_left h (Notions.visits d) (O, O)).
Proof.
  intros d h.
  apply (Traverse_in_order h (fun pa s => (pa, h s (inl pa)))
           (fun p s => (p, h s (inr p))) (O, O) d);
    reflexivity.
Defined.

End BufferMore.

Module TurtleMore.
Import color drawing lsys DrawingFacts TurtleFacts BufferMore.
Local Open Scope list_scope.

Section Generic.
Context {F : Type} {ops : Float64 F} {mth : Math F}.

Lemma occurrences_single (c : ascii) (v : rune) :
  Notions.occurrences c [v] = if v =? rune_of c then 1%nat else 0%nat.
Proof.
  unfold Notions.occurrences; cbn [count_occ].
  destruct (Z.eq_dec v (rune_of c)) as [E|E].
  - now rewrite (proj2 (Z.eqb_eq _ _) E).
  - now rewrite (proj2 (Z.eqb_neq _ _) E).
Qed.

Lemma occurrences_cons (c : ascii) (v : rune) (vs : list rune) :
  Notions.occurrences c (v :: vs)
  = (Notions.occurrences c [v] + Notions.occurrences c vs)%nat.
Proof.
  unfold Notions.occurrences; cbn [count_occ].
  now destruct (Z.eq_dec v (rune_of c)).
Qed.

Lemma paths_opened_cons (onePath : bool) (v : rune) (vs : list rune) :
  Notions.paths_opened onePath (v :: vs)
  = (Notions.paths_opened onePath [v] + Notions.paths_opened onePath vs)%nat.
Proof.
  unfold Notions.paths_opened. destruct onePath; [reflexivity|].
  rewrite (occurrences_cons "f"), (occurrences_cons "]"). lia.
Qed.

Lemma LineTo_effect (q : FPoint F) (d : Drawing F) :
  Paths d <> [] ->
  exists d',
    LineTo q d = Ok d'
    /\ Paths d' <> []
    /\ length (Paths d') = length (Paths d)
    /\ length (Spec.all_points d') = S (length (Spec.all_points d))
    /\ forall c, Forall (Notions.made_path c) (Paths d) ->
                 Forall (Notions.made_path c) (Paths d').
Proof.
  intros Hne. destruct (LineTo_some q d Hne) as (l & pa & El & ->).
  eexists. split; [reflexivity|]. destruct d as [pas]; cbn [Paths] in *.
  subst pas. repeat split.
  - intros E. now apply app_eq_nil in E as [_ E].
  - now rewrite !length_app.
  - rewrite !all_points_snoc, !length_app. cbn [Points].
    rewrite length_app. cbn. lia.
  - intros c H. apply Forall_app in H as [Hl Hpa]. apply Forall_app.
    split; [assumption|]. inversion Hpa as [|? ? [Hp Hc] _]; subst.
    constructor; [|constructor]. split; cbn; [|reflexivity].
    intros E. now apply app_eq_nil in E as [_ E].
Qed.

Lemma MoveTo_effect (q : FPoint F) (c : RGBA) (d : Drawing F) :
  Paths (MoveTo q c d) <> []
  /\ length (Paths (MoveTo q c d)) = S (length (Paths d))
  /\ length (Spec.all_points (MoveTo q c d)) = S (length (Spec.all_points d))
  /\ (Forall (Notions.made_path c) (Paths d) ->
      Forall (Notions.made_path c) (Paths (MoveTo q c d))).
Proof.
  repeat split.
  - unfold MoveTo; cbn [Paths]. intros E. now apply app_eq_nil in E as [_ E].
  - apply length_Paths_MoveTo.
  - rewrite all_points_MoveTo, length_app. cbn. lia.
  - intros H. unfold MoveTo; cbn [Paths]. apply Forall_app. split; [assumption|].
    constructor; [|constructor]. split; [discriminate | reflexivity].
Qed.

Ltac eval_runes :=
  repeat match goal with
  | |- context [Z.eqb (rune_of ?a) (rune_of ?b)] =>
    let r := eval vm_compute in (Z.eqb (rune_of a) (rune_of b)) in
    change (Z.eqb (rune_of a) (rune_of b)) with r
  end.

Lemma DrawLSys_step_effect (angle : F) (color : RGBA) (onePath : bool)
    (t : turtle F) (v : rune) :
  Paths (v_drw t) <> [] ->
  (v = rune_of "]"%char /\ v_stack t = []
   /\ DrawLSys_step angle color onePath t v
      = Panic (index_out_of_range (-1) 0))
  \/ exists t', DrawLSys_step angle color onePath t v = Ok t'
                /\ Notions.turn_effect color onePath v t t'.
Proof.
  intros Hne. unfold Notions.turn_effect, Notions.paths_opened.
  rewrite !occurrences_single. unfold DrawLSys_step.
  destruct (Z.eqb_spec v (rune_of "F"%char)) as [->|HF].
  { right. eval_runes.
    destruct (LineTo_effect (PointFromTheta (v_p t) (v_theta t) lit1)
                (v_drw t) Hne) as (d' & -> & H1 & H2 & H3 & H4).
    cbn [bind]. eexists. split; [reflexivity|]. cbn [v_drw v_stack].
    destruct onePath; repeat split; try assumption; try lia; auto. }
  destruct (Z.eqb_spec v (rune_of "-"%char)) as [->|Hm].
  { right. eval_runes. eexists. split; [reflexivity|]. cbn [v_drw v_stack].
    destruct onePath; repeat split; try assumption; try lia; auto. }
  destruct (Z.eqb_spec v (rune_of "+"%char)) as [->|Hp].
  { right. eval_runes. eexists. split; [reflexivity|]. cbn [v_drw v_stack].
    destruct onePath; repeat split; try assumption; try lia; auto. }
  destruct (Z.eqb_spec v (rune_of "f"%char)) as [->|Hf].
  { right. eval_runes. eexists. split; [reflexivity|]. cbn [v_drw v_stack].
    destruct (MoveTo_effect (PointFromTheta (v_p t) (v_theta t) lit1)
                color (v_drw t)) as (H1 & H2 & H3 & H4).
    destruct onePath; cbn [negb];
      repeat split; try assumption; try lia; auto. }
  destruct (Z.eqb_spec v (rune_of "["%char)) as [->|Ho].
  { right. eval_runes. eexists. split; [reflexivity|]. cbn [v_drw v_stack].
    rewrite length_app. cbn [length].
    destruct onePath; repeat split; try assumption; try lia; auto. }
  destruct (Z.eqb_spec v (rune_of "]"%char)) as [->|Hc].
  2:{ right. eexists. split; [reflexivity|].
      destruct onePath; repeat split; try assumption; try lia; auto. }
  eval_runes.
  destruct (snoc_cases (v_stack t)) as [E | (s & se & E)]; rewrite E.
  - left. auto.
  - right. rewrite last_index, index_length. cbn [bind].
    eexists. split; [reflexivity|]. cbn [v_drw v_stack].
    rewrite Nat2Z.id, firstn_length, length_app. cbn [length].
    destruct (MoveTo_effect (Point se) color (v_drw t))
      as (H1 & H2 & H3 & H4).
    destruct onePath; cbn [negb];
      repeat split; try assumption; try lia; auto.
Qed.

(** The whole loop: it panics exactly when a closing bracket comes with no
    bracket open, and otherwise adds paths and points as the symbols say. *)
Lemma DrawLSys_loop_effect (angle : F) (color : RGBA) (onePath : bool)
    (vs : list rune) :
  forall t,
  Paths (v_drw t) <> [] ->
  if Notions.underflows (length (v_stack t)) vs
  then DrawLSys_loop angle color onePath vs t
       = Panic (index_out_of_range (-1) 0)
  else exists t',
    DrawLSys_loop angle color onePath vs t = Ok t'
    /\ Paths (v_drw t') <> []
    /\ length (Paths (v_drw t'))
       = (length (Paths (v_drw t)) + Notions.paths_opened onePath vs)%nat
    /\ length (Spec.all_points (v_drw t'))
       = (length (Spec.all_points (v_drw t)) + Notions.occurrences "F" vs
          + Notions.paths_opened onePath vs)%nat
    /\ (Forall (Notions.made_path color) (Paths (v_drw t)) ->
        Forall (Notions.made_path color) (Paths (v_drw t'))).
Proof.
  induction vs as [|v vs IH]; intros t Hne.
  - cbn [Notions.underflows DrawLSys_loop]. exists t.
    unfold Notions.paths_opened, Notions.occurrences. cbn.
    repeat split; auto; destruct onePath; lia.
  - cbn [DrawLSys_loop Notions.underflows].
    destruct (DrawLSys_step_effect angle color onePath t v Hne)
      as [(-> & Hs & E) | (t1 & E & H1 & H2 & H3 & H4 & H5)]; rewrite E.
    + rewrite Hs. reflexivity.
    + cbn [bind]. specialize (IH t1 H1).
      rewrite !occurrences_single in H4.
      assert (Notions.underflows (length (v_stack t1)) vs
              = (if v =? rune_of "["%char
                 then Notions.underflows (S (length (v_stack t))) vs
                 else if v =? rune_of "]"%char
                      then match length (v_stack t) with
                           | O => true
                           | S k => Notions.underflows k vs
                           end
                      else Notions.underflows (length (v_stack t)) vs)) as Hd.
      { destruct (v =? rune_of "["%char) eqn:Ho.
        - apply Z.eqb_eq in Ho. subst v.
          change (rune_of "[" =? rune_of "]") with false in H4.
          change (rune_of "[" =? rune_of "[") with true in H4.
          cbv iota in H4. f_equal. lia.
        - rewrite ?Ho in H4.
          destruct (v =? rune_of "]"%char) eqn:Hc; rewrite ?Hc in H4;
            cbv iota in H4.
          + destruct (length (v_stack t)) as [|k]; [lia|]. f_equal. lia.
          + f_equal. lia. }
      rewrite <- Hd.
      destruct (Notions.underflows (length (v_stack t1)) vs); [exact IH|].
      destruct IH as (t' & Hrun & I1 & I2 & I3 & I4).
      exists t'. rewrite (occurrences_cons "F"), paths_opened_cons.
      repeat split; auto; lia.
Qed.

(** X8.  [DrawLSys] panics exactly when the string closes a bracket that is
    not open (then with index -1, at the first such [']']); in every other
    case, brackets left open included, it returns a drawing. *)
Theorem DrawLSys_panics_iff_underflow (drw : Drawing F) (lSys : string)
    (theta angle : F) (color : RGBA) (onePath : bool) :
  if Notions.underflows 0 (runes lSys)
  then DrawLSys drw lSys theta angle color onePath
       = Panic (index_out_of_range (-1) 0)
  else exists d, DrawLSys drw lSys theta angle color onePath = Ok d.
Proof.
  unfold DrawLSys.
  pose proof (DrawLSys_loop_effect angle color onePath (runes lSys)
                (DrawLSys_init drw theta color)) as H.
  cbn [DrawLSys_init v_stack length] in H.
  destruct (Notions.underflows 0 (runes lSys)).
  - rewrite H; [reflexivity|].
    cbn [v_drw]. apply MoveTo_effect.
  - destruct H as (t' & -> & _); [cbn [v_drw]; apply MoveTo_effect|].
    cbn [bind]. eauto.
Qed.

Lemma DrawLSys_effect (lSys : string) (theta angle : F) (color : RGBA)
    (onePath : bool) (d : Drawing F) :
  DrawLSys {| Paths := [] |} lSys theta angle color onePath = Ok d ->
  length (Paths d) = S (Notions.paths_opened onePath (runes lSys))
  /\ length (Spec.all_points d)
     = (length (Paths d) + Notions.occurrences "F" (runes lSys))%nat
  /\ Forall (Notions.made_path color) (Paths d).
Proof.
  unfold DrawLSys. intros Hrun.
  pose proof (DrawLSys_loop_effect angle color onePath (runes lSys)
                (DrawLSys_init {| Paths := [] |} theta color)) as H.
  destruct (Notions.underflows
              (length (v_stack (DrawLSys_init {| Paths := [] |} theta color)))
              (runes lSys)).
  - rewrite H in Hrun; [discriminate|]. cbn [v_drw DrawLSys_init].
    apply MoveTo_effect.
  - destruct H as (t' & E & _ & H2 & H3 & H4);
      [cbn [v_drw DrawLSys_init]; apply MoveTo_effect|].
    rewrite E in Hrun. cbn [bind] in Hrun. injection Hrun as <-.
    cbn in H2, H3. repeat split; [lia | lia |].
    apply H4. cbn. constructor; [|constructor].
    split; [discriminate | reflexivity].
Qed.

(** X9.  Into an empty drawing, a run that returns makes one path, plus,
    unless a single path is forced, one for every [f] and one for every
    [']']; and it makes as many points as paths plus one for every [F]. *)
Theorem DrawLSys_counts (lSys : string) (theta angle : F) (color : RGBA)
    (onePath : bool) (d : Drawing F) :
  DrawLSys {| Paths := [] |} lSys theta angle color onePath = Ok d ->
  length (Paths d)
  = (if onePath then 1
     else 1 + Notions.occurrences "f" (runes lSys)
            + Notions.occurrences "]" (runes lSys))%nat
  /\ length (Spec.all_points d)
     = (length (Paths d) + Notions.occurrences "F" (runes lSys))%nat.
Proof.
  intros Hrun.
  destruct (DrawLSys_effect lSys theta angle color onePath d Hrun)
    as (H1 & H2 & _).
  split; [|exact H2]. rewrite H1. unfold Notions.paths_opened.
  destruct onePath; lia.
Qed.

(** X10.  Into an empty drawing, a run that returns makes only paths that
    have at least one point and the color given to the call; the drawing
    keeps the data model's invariant and has a point. *)
Theorem DrawLSys_makes_paths (lSys : string) (theta angle : F)
    (color : RGBA) (onePath : bool) (d : Drawing F) :
  DrawLSys {| Paths := [] |} lSys theta angle color onePath = Ok d ->
  Forall (fun pa => Points pa <> [] /\ Color pa = color) (Paths d)
  /\ Spec.well_formed d
  /\ Spec.all_points d <> [].
Proof.
  intros Hrun.
  destruct (DrawLSys_effect lSys theta angle color onePath d Hrun)
    as (H1 & H2 & H3).
  split; [exact H3|]. split.
  - unfold Spec.well_formed. eapply List.Forall_impl; [|exact H3].
    intros pa [Hp _]. exact Hp.
  - intros E. rewrite E in H2. cbn in H2. lia.
Qed.

Lemma well_formed_map_points (f : FPoint F -> FPoint F) (d : Drawing F) :
  Spec.well_formed d -> Spec.well_formed (Spec.map_points f d).
Proof.
  unfold Spec.well_formed, Spec.map_points; cbn [Paths]. intros H.
  apply Forall_map. eapply List.Forall_impl; [|exact H].
  intros pa Hp; cbn. intros E. apply map_eq_nil in E. contradiction.
Qed.

Lemma Bounds_Ok_of_points (d : Drawing F) :
  Spec.well_formed d -> Spec.all_points d <> [] ->
  exists db, Bounds d = Ok db.
Proof.
  intros Hwf Hne.
  destruct (first_point d Hwf Hne) as (pa & rest & p0 & pts & Hd & Hpa).
  rewrite (Bounds_fold d pa rest p0 pts Hd Hpa). eauto.
Qed.

(** X11.  What [RenderPng] and [RenderSvg] do to a drawing before they
    draw it cannot panic on a drawing [DrawLSys] made: [Flip] and then
    [CenterWithMargin], for any target rectangle and margin, return a
    drawing, with the same paths, numbers of points and colors. *)
Theorem render_prepares (lSys : string) (theta angle : F) (color : RGBA)
    (onePath : bool) (d : Drawing F) (vert : bool) (tb : FRect F)
    (tm : FPoint F) :
  DrawLSys {| Paths := [] |} lSys theta angle color onePath = Ok d ->
  exists d1 d2,
    Flip vert d = Ok d1
    /\ CenterWithMargin tb tm d1 = Ok d2
    /\ Spec.shape d2 = Spec.shape d.
Proof.
  intros Hrun.
  destruct (DrawLSys_effect lSys theta angle color onePath d Hrun)
    as (H1 & H2 & H3).
  assert (Spec.well_formed d) as Hwf.
  { unfold Spec.well_formed. eapply List.Forall_impl; [|exact H3].
    intros pa [Hp _]. exact Hp. }
  assert (Spec.all_points d <> []) as Hne.
  { intros E. rewrite E in H2. cbn in H2. lia. }
  destruct (Bounds_Ok_of_points d Hwf Hne) as [db Hdb].
  rewrite Flip_map, Hdb. cbn [bind].
  set (d1 := Spec.map_points
               (fun p => if vert then fst (VFlipPt p db)
                         else fst (HFlipPt p db)) d).
  assert (exists db1, Bounds d1 = Ok db1) as [db1 Hdb1].
  { apply Bounds_Ok_of_points.
    - now apply well_formed_map_points.
    - unfold d1. rewrite all_points_map_points.
      intros E. apply map_eq_nil in E. contradiction. }
  exists d1. unfold CenterWithMargin. rewrite Hdb1. cbn [bind].
  eexists. split; [reflexivity|]. split; [reflexivity|].
  rewrite Translate_map, Scale_map, !shape_map_points.
  apply shape_map_points.
Qed.

Lemma command_false (v : rune) :
  Notions.command v = false ->
  (v =? rune_of "F"%char) = false /\ (v =? rune_of "-"%char) = false
  /\ (v =? rune_of "+"%char) = false /\ (v =? rune_of "f"%char) = false
  /\ (v =? rune_of "["%char) = false /\ (v =? rune_of "]"%char) = false.
Proof.
  unfold Notions.command. cbn [map existsb]. intros H.
  repeat (apply orb_false_iff in H as [? H]). auto 10.
Qed.

Lemma DrawLSys_loop_filter (angle : F) (color : RGBA) (onePath : bool)
    (vs : list rune) :
  forall t,
  DrawLSys_loop angle color onePath vs t
  = DrawLSys_loop angle color onePath (List.filter Notions.command vs) t.
Proof.
  induction vs as [|v vs IH]; intros t; [reflexivity|].
  cbn [List.filter DrawLSys_loop].
  destruct (Notions.command v) eqn:Hc.
  - cbn [DrawLSys_loop].
    destruct (DrawLSys_step angle color onePath t v); cbn [bind];
      [apply IH | reflexivity].
  - destruct (command_false v Hc) as (A & B & C & D & E & G).
    unfold DrawLSys_step. rewrite A, B, C, D, E, G. cbn [bind]. apply IH.
Qed.

(** X12.  [DrawLSys] ignores every character but [F], [-], [+], [f], [[]
    and [']']: two strings that agree once the other characters are taken
    out are interpreted alike. *)
Theorem DrawLSys_ignores_others (drw : Drawing F) (lSys lSys' : string)
    (theta angle : F) (color : RGBA) (onePath : bool) :
  List.filter Notions.command (runes lSys)
  = List.filter Notions.command (runes lSys')
  ->
  DrawLSys drw lSys theta angle color onePath
  = DrawLSys drw lSys' theta angle color onePath.
Proof.
  intros H. unfold DrawLSys.
  now rewrite (DrawLSys_loop_filter _ _ _ (runes lSys)), H,
              <- (DrawLSys_loop_filter _ _ _ (runes lSys')).
Qed.

End Generic.

(** X9 on the string F[+F]fF. *)
Lemma DrawLSys_counts_witness :
  exists d,
    DrawLSys (mth := binary64.math binary64.cos_poly binary64.sin_poly)
      {| Paths := [] |} "F[+F]fF" 0%float 90%float ColorBLACK false = Ok d
    /\ length (Paths d) = 3%nat /\ length (Spec.all_points d) = 6%nat.
Proof.
  assert (exists d,
            DrawLSys (mth := binary64.math binary64.cos_poly binary64.sin_poly)
              {| Paths := [] |} "F[+F]fF" 0%float 90%float ColorBLACK false
            = Ok d) as [d Hd] by (eexists; vm_compute; reflexivity).
  exists d. split; [exact Hd|].
  destruct (DrawLSys_counts
              (mth := binary64.math binary64.cos_poly binary64.sin_poly)
              "F[+F]fF" 0%float 90%float ColorBLACK false d Hd) as [H1 H2].
  rewrite H2, H1. split; reflexivity.
Defined.

(** X10 on the string F[+F]fF. *)
Lemma DrawLSys_makes_paths_witness :
  exists d,
    DrawLSys (mth := binary64.math binary64.cos_poly binary64.sin_poly)
      {| Paths := [] |} "F[+F]fF" 0%float 90%float ColorBLACK false = Ok d
    /\ Forall (fun pa => Points pa <> [] /\ Color pa = ColorBLACK) (Paths d)
    /\ Spec.well_formed d
    /\ Spec.all_points d <> [].
Proof.
  assert (exists d,
            DrawLSys (mth := binary64.math binary64.cos_poly binary64.sin_poly)
              {| Paths := [] |} "F[+F]fF" 0%float 90%float ColorBLACK false
            = Ok d) as [d Hd] by (eexists; vm_compute; reflexivity).
  exists d. split; [exact Hd|].
  exact (DrawLSys_makes_paths
           (mth := binary64.math binary64.cos_poly binary64.sin_poly)
           "F[+F]fF" 0%float 90%float ColorBLACK false d Hd).
Defined.

(** X11 on the string F[+F]fF, the vertical flip, and the target rectangle
    and margin of the renderers' default. *)
Lemma render_prepares_witness :
  exists d d1 d2,
    DrawLSys (mth := binary64.math binary64.cos_poly binary64.sin_poly)
      {| Paths := [] |} "F[+F]fF" 0%float 90%float ColorBLACK false = Ok d
    /\ Flip true d = Ok d1
    /\ CenterWithMargin
         {| Min := {| X := 0; Y := 0 |};
            Max := {| X := 1999; Y := 1999 |} |}%float
         {| X := 0x1.999999999999ap-4; Y := 0x1.999999999999ap-4 |}%float d1
       = Ok d2
    /\ Spec.shape d2 = Spec.shape d.
Proof.
  assert (exists d,
            DrawLSys (mth := binary64.math binary64.cos_poly binary64.sin_poly)
              {| Paths := [] |} "F[+F]fF" 0%float 90%float ColorBLACK false
            = Ok d) as [d Hd] by (eexists; vm_compute; reflexivity).
  exists d.
  destruct (render_prepares
              (mth := binary64.math binary64.cos_poly binary64.sin_poly)
              "F[+F]fF" 0%float 90%float ColorBLACK false d true
              {| Min := {| X := 0; Y := 0 |};
                 Max := {| X := 1999; Y := 1999 |} |}%float
              {| X := 0x1.999999999999ap-4; Y := 0x1.999999999999ap-4 |}%float
              Hd)
    as (d1 & d2 & H1 & H2 & H3).
  exists d1, d2. auto.
Defined.

(** X12 on a string with characters that are no commands. *)
Lemma DrawLSys_ignores_others_witness :
  DrawLSys (mth := binary64.math binary64.cos_poly binary64.sin_poly)
    {| Paths := [] |} "XF [Y+F] Zf" 0%float 90%float ColorBLACK false
  = DrawLSys (mth := binary64.math binary64.cos_poly binary64.sin_poly)
      {| Paths := [] |} "F[+F]f" 0%float 90%float ColorBLACK false.
Proof.
  apply (DrawLSys_ignores_others
           (mth := binary64.math binary64.cos_poly binary64.sin_poly)).
  reflexivity.
Defined.

End TurtleMore.

(* ===================================================================== *)
(** ** The order of [float64], [math.Min] and [math.Max] *)
(* ===================================================================== *)

Module OrderFacts.
Import binary64.

Lemma lex_spec (e1 : Z) (m1 : positive) (e2 : Z) (m2 : positive) :
  match lex e1 m1 e2 m2 with
  | Lt => e1 < e2 \/ (e1 = e2 /\ (m1 < m2)%positive)
  | Eq => e1 = e2 /\ m1 = m2
  | Gt => e2 < e1 \/ (e1 = e2 /\ (m2 < m1)%positive)
  end.
Proof.
  unfold lex. destruct (Z.compare_spec e1 e2) as [E|E|E]; [|now left|now left].
  change (Pos.compare_cont Eq m1 m2) with (Pos.compare m1 m2).
  destruct (Pos.compare_spec m1 m2); auto.
Qed.

Lemma SFcompare_finite (s1 s2 : bool) (m1 m2 : positive) (e1 e2 : Z) :
  SFcompare (S754_finite s1 m1 e1) (S754_finite s2 m2 e2)
  = Some (match s1, s2 with
          | true, false => Lt
          | false, true => Gt
          | false, false => lex e1 m1 e2 m2
          | true, true => CompOpp (lex e1 m1 e2 m2)
          end).
Proof.
  cbn [SFcompare]. unfold lex. destruct s1, s2; try reflexivity.
  now destruct (e1 ?= e2).
Qed.

Lemma SFleb_trans (f g h : spec_float) :
  SFleb f g = true -> SFleb g h = true -> SFleb f h = true.
Proof.
  unfold SFleb.
  destruct f as [sf|sf| |sf mf ef], g as [sg|sg| |sg mg eg],
           h as [sh|sh| |sh mh eh];
    rewrite ?SFcompare_finite; cbn [SFcompare]; intros H1 H2;
    try discriminate; try reflexivity;
    try (destruct sf; discriminate || reflexivity);
    try (destruct sg; discriminate || reflexivity);
    try (destruct sh; discriminate || reflexivity);
    try (destruct sf, sg; discriminate || reflexivity);
    try (destruct sf, sh; discriminate || reflexivity);
    try (destruct sg, sh; discriminate || reflexivity).
  all: destruct sf, sg, sh; try discriminate; try reflexivity;
    pose proof (lex_spec ef mf eg mg) as L1;
    pose proof (lex_spec eg mg eh mh) as L2;
    pose proof (lex_spec ef mf eh mh) as L3;
    destruct (lex ef mf eg mg), (lex eg mg eh mh), (lex ef mf eh mh);
    cbn [CompOpp] in *; try discriminate; try reflexivity; exfalso; lia.
Qed.

Lemma SFcompare_refl (f : spec_float) :
  f <> S754_nan -> SFcompare f f = Some Eq.
Proof.
  destruct f as [s|s| |s m e]; intros H; try reflexivity; [destruct s; reflexivity|contradiction|].
  rewrite SFcompare_finite. pose proof (lex_spec e m e m) as L.
  destruct s, (lex e m e m); cbn [CompOpp]; try reflexivity; exfalso; lia.
Qed.

Lemma SFcompare_antisym (f g : spec_float) :
  SFcompare g f = option_map CompOpp (SFcompare f g).
Proof.
  destruct f as [sf|sf| |sf mf ef], g as [sg|sg| |sg mg eg];
    rewrite ?SFcompare_finite; cbn [SFcompare option_map CompOpp];
    try reflexivity;
    try (destruct sf; reflexivity); try (destruct sg; reflexivity);
    try (destruct sf, sg; reflexivity).
  pose proof (lex_spec ef mf eg mg) as L1.
  pose proof (lex_spec eg mg ef mf) as L2.
  destruct sf, sg, (lex ef mf eg mg), (lex eg mg ef mf);
    cbn [CompOpp]; try reflexivity; exfalso; lia.
Qed.

Lemma number_spec (x : float) : Spec.number x <-> Prim2SF x <> S754_nan.
Proof.
  unfold Spec.number, is_nan. rewrite FloatAxioms.eqb_spec. unfold SFeqb. split.
  - intros H E. rewrite E in H. discriminate.
  - intros H. now rewrite SFcompare_refl.
Qed.

Lemma le_refl (x : float) : Spec.number x -> Spec.le x x.
Proof.
  intros H. unfold Spec.le. rewrite FloatAxioms.leb_spec. unfold SFleb.
  now rewrite SFcompare_refl by now apply number_spec.
Qed.

Lemma le_trans (x y z : float) : Spec.le x y -> Spec.le y z -> Spec.le x z.
Proof. unfold Spec.le. rewrite !FloatAxioms.leb_spec. apply SFleb_trans. Qed.

Lemma ltb_le (x y : float) : PrimFloat.ltb x y = true -> Spec.le x y.
Proof.
  unfold Spec.le. rewrite FloatAxioms.ltb_spec, FloatAxioms.leb_spec.
  unfold SFltb, SFleb. now destruct (SFcompare _ _) as [[]|].
Qed.

Lemma not_ltb_le (x y : float) :
  Spec.number x -> Spec.number y -> PrimFloat.ltb x y = false -> Spec.le y x.
Proof.
  intros Hx%number_spec Hy%number_spec. unfold Spec.le.
  rewrite FloatAxioms.ltb_spec, FloatAxioms.leb_spec. unfold SFltb, SFleb.
  rewrite (SFcompare_antisym (Prim2SF x) (Prim2SF y)).
  destruct (Prim2SF x) as [sx|sx| |sx mx ex], (Prim2SF y) as [sy|sy| |sy my ey];
    try contradiction; rewrite ?SFcompare_finite; cbn [SFcompare option_map];
    try (destruct sx); try (destruct sy); cbn [CompOpp];
    try discriminate; try reflexivity;
    destruct (lex ex mx ey my); cbn [CompOpp]; discriminate || reflexivity.
Qed.

Lemma eqb_le (x y : float) : PrimFloat.eqb x y = true -> Spec.le x y /\ Spec.le y x.
Proof.
  unfold Spec.le. rewrite FloatAxioms.eqb_spec, !FloatAxioms.leb_spec.
  unfold SFeqb, SFleb. rewrite (SFcompare_antisym (Prim2SF x) (Prim2SF y)).
  now destruct (SFcompare (Prim2SF x) (Prim2SF y)) as [[]|].
Qed.

Lemma eqb_number (x y : float) :
  PrimFloat.eqb x y = true -> Spec.number x /\ Spec.number y.
Proof.
  rewrite FloatAxioms.eqb_spec, !number_spec. unfold SFeqb.
  destruct (Prim2SF x), (Prim2SF y); cbn [SFcompare]; try discriminate;
    now split.
Qed.

Lemma eqb_infinity (s : bool) (x : float) :
  SFeqb (Prim2SF x) (S754_infinity s) = true ->
  Prim2SF x = S754_infinity s.
Proof.
  unfold SFeqb. destruct (Prim2SF x) as [sx|sx| |sx mx ex]; cbn [SFcompare];
    try discriminate; try (destruct s; discriminate).
  destruct sx, s; try discriminate; reflexivity.
Qed.

Lemma IsNegInf_eq (x : float) : IsNegInf x = true -> x = neg_infinity.
Proof.
  unfold IsNegInf. rewrite FloatAxioms.eqb_spec.
  change (Prim2SF neg_infinity) with (S754_infinity true).
  intros H%eqb_infinity. apply Prim2SF_inj. now rewrite H.
Qed.

Lemma IsPosInf_eq (x : float) : IsPosInf x = true -> x = infinity.
Proof.
  unfold IsPosInf. rewrite FloatAxioms.eqb_spec.
  change (Prim2SF infinity) with (S754_infinity false).
  intros H%eqb_infinity. apply Prim2SF_inj. now rewrite H.
Qed.

Lemma le_neg_infinity (x : float) : Spec.number x -> Spec.le neg_infinity x.
Proof.
  intros H%number_spec. unfold Spec.le. rewrite FloatAxioms.leb_spec.
  change (Prim2SF neg_infinity) with (S754_infinity true). unfold SFleb.
  destruct (Prim2SF x) as [sx|sx| |sx mx ex]; try contradiction;
    cbn [SFcompare]; try reflexivity. now destruct sx.
Qed.

Lemma le_infinity (x : float) : Spec.number x -> Spec.le x infinity.
Proof.
  intros H%number_spec. unfold Spec.le. rewrite FloatAxioms.leb_spec.
  change (Prim2SF infinity) with (S754_infinity false). unfold SFleb.
  destruct (Prim2SF x) as [sx|sx| |sx mx ex]; try contradiction;
    cbn [SFcompare]; try reflexivity. now destruct sx.
Qed.

(** [math.Min] of two numbers is one of them, and at most both. *)
Lemma Min_spec (x y : float) :
  Spec.number x -> Spec.number y ->
  (Min x y = x \/ Min x y = y) /\ Spec.le (Min x y) x /\ Spec.le (Min x y) y.
Proof.
  intros Hx Hy. unfold Min.
  destruct (IsNegInf x) eqn:Ix.
  { apply IsNegInf_eq in Ix. subst x. cbn [orb].
    split; [now left|]. split; [now apply le_refl | now apply le_neg_infinity]. }
  destruct (IsNegInf y) eqn:Iy.
  { apply IsNegInf_eq in Iy. subst y. cbn [orb].
    split; [now right|]. split; [now apply le_neg_infinity | now apply le_refl]. }
  cbn [orb]. unfold IsNaN. rewrite Hx, Hy. cbn [orb].
  destruct (PrimFloat.eqb x 0 && PrimFloat.eqb x y) eqn:Ez.
  { apply andb_prop in Ez as [_ Exy]. destruct (eqb_le x y Exy) as [L1 L2].
    destruct (Signbit x).
    - split; [now left|]. split; [now apply le_refl | exact L1].
    - split; [now right|]. split; [exact L2 | now apply le_refl]. }
  destruct (PrimFloat.ltb x y) eqn:Lt.
  - split; [now left|]. split; [now apply le_refl | now apply ltb_le].
  - split; [now right|]. split; [now apply not_ltb_le | now apply le_refl].
Qed.

Lemma Max_spec (x y : float) :
  Spec.number x -> Spec.number y ->
  (Max x y = x \/ Max x y = y) /\ Spec.le x (Max x y) /\ Spec.le y (Max x y).
Proof.
  intros Hx Hy. unfold Max.
  destruct (IsPosInf x) eqn:Ix.
  { apply IsPosInf_eq in Ix. subst x. cbn [orb].
    split; [now left|]. split; [now apply le_refl | now apply le_infinity]. }
  destruct (IsPosInf y) eqn:Iy.
  { apply IsPosInf_eq in Iy. subst y. cbn [orb].
    split; [now right|]. split; [now apply le_infinity | now apply le_refl]. }
  cbn [orb]. unfold IsNaN. rewrite Hx, Hy. cbn [orb].
  destruct (PrimFloat.eqb x 0 && PrimFloat.eqb x y) eqn:Ez.
  { apply andb_prop in Ez as [_ Exy]. destruct (eqb_le x y Exy) as [L1 L2].
    destruct (Signbit x).
    - split; [now right|]. split; [exact L1 | now apply le_refl].
    - split; [now left|]. split; [now apply le_refl | exact L2]. }
  destruct (PrimFloat.ltb y x) eqn:Lt.
  - split; [now left|]. split; [now apply le_refl | now apply ltb_le].
  - split; [now right|]. split; [now apply not_ltb_le | now apply le_refl].
Qed.

End OrderFacts.

(* ===================================================================== *)
(** ** More about the transforms on [float64] *)
(* ===================================================================== *)

Module Binary64More.
Import color drawing DrawingFacts CoordFacts IntegerFacts Binary64Facts.
Import OrderFacts.
Local Open Scope list_scope.

(** *** [Bounds] *)

Lemma fold_Min_spec (l : list float) (a : float) :
  Spec.number a -> Forall Spec.number l ->
  Spec.number (fold_left binary64.Min l a)
  /\ Spec.le (fold_left binary64.Min l a) a
  /\ (forall x, In x l -> Spec.le (fold_left binary64.Min l a) x)
  /\ In (fold_left binary64.Min l a) (a :: l).
Proof.
  revert a. induction l as [|x l IH]; intros a Ha Hl; cbn [fold_left].
  - split; [exact Ha|]. split; [now apply le_refl|].
    split; [intros x []|now left].
  - inversion Hl as [|? ? Hx Hl']; subst.
    destruct (Min_spec a x Ha Hx) as (Hc & L1 & L2).
    assert (Spec.number (binary64.Min a x)) as Hn
      by (destruct Hc as [-> | ->]; assumption).
    destruct (IH (binary64.Min a x) Hn Hl') as (H1 & H2 & H3 & H4).
    split; [exact H1|]. split; [now apply (le_trans _ _ _ H2)|]. split.
    + intros y [<-|Hy]; [now apply (le_trans _ _ _ H2) | now apply H3].
    + destruct H4 as [H4|H4]; [|now right; right].
      rewrite <- H4. destruct Hc as [-> | ->]; [now left | now right; left].
Qed.

Lemma fold_Max_spec (l : list float) (a : float) :
  Spec.number a -> Forall Spec.number l ->
  Spec.number (fold_left binary64.Max l a)
  /\ Spec.le a (fold_left binary64.Max l a)
  /\ (forall x, In x l -> Spec.le x (fold_left binary64.Max l a))
  /\ In (fold_left binary64.Max l a) (a :: l).
Proof.
  revert a. induction l as [|x l IH]; intros a Ha Hl; cbn [fold_left].
  - split; [exact Ha|]. split; [now apply le_refl|].
    split; [intros x []|now left].
  - inversion Hl as [|? ? Hx Hl']; subst.
    destruct (Max_spec a x Ha Hx) as (Hc & L1 & L2).
    assert (Spec.number (binary64.Max a x)) as Hn
      by (destruct Hc as [-> | ->]; assumption).
    destruct (IH (binary64.Max a x) Hn Hl') as (H1 & H2 & H3 & H4).
    split; [exact H1|]. split; [now apply (le_trans _ _ _ L1)|]. split.
    + intros y [<-|Hy]; [now apply (le_trans _ _ _ L2) | now apply H3].
    + destruct H4 as [H4|H4]; [|now right; right].
      rewrite <- H4. destruct Hc as [-> | ->]; [now left | now right; left].
Qed.

(** The minimum and the maximum of one coordinate, as [Bounds] folds
    them: they enclose the coordinate of every point and are the
    coordinate of some point. *)
Lemma coordinate_range (c : FPoint float -> float) (p0 : FPoint float)
    (pts : list (FPoint float)) :
  In p0 pts -> Forall (fun p => Spec.number (c p)) pts ->
  let lo := fold_left binary64.Min (map c pts) (c p0) in
  let hi := fold_left binary64.Max (map c pts) (c p0) in
  (forall p, In p pts -> Spec.le lo (c p) /\ Spec.le (c p) hi)
  /\ (exists p, In p pts /\ c p = lo)
  /\ (exists p, In p pts /\ c p = hi)
  /\ Spec.le lo hi.
Proof.
  intros Hp0 Hn lo hi.
  assert (Spec.number (c p0)) as H0
    by now apply (proj1 (List.Forall_forall _ _) Hn).
  assert (Forall Spec.number (map c pts)) as Hl by now apply List.Forall_map.
  destruct (fold_Min_spec (map c pts) (c p0) H0 Hl) as (_ & A1 & A2 & A3).
  destruct (fold_Max_spec (map c pts) (c p0) H0 Hl) as (_ & B1 & B2 & B3).
  fold lo in A1, A2, A3. fold hi in B1, B2, B3.
  split; [|split; [|split]].
  - intros p Hp. split; [apply A2 | apply B2]; now apply in_map.
  - destruct A3 as [A3|A3]; [now exists p0|].
    apply in_map_iff in A3 as (p & E & Hp). now exists p.
  - destruct B3 as [B3|B3]; [now exists p0|].
    apply in_map_iff in B3 as (p & E & Hp). now exists p.
  - now apply (le_trans _ (c p0)).
Qed.

(** X13.  On [float64], for a drawing without a NaN coordinate, the
    rectangle [Bounds] returns is the bounding box: every point of the
    drawing lies in it, each of its four sides passes through a point of
    the drawing, and its minimum is at most its maximum in both
    coordinates. *)
Theorem Bounds_tight (d : Drawing float) (db : FRect float) :
  Bounds d = Ok db ->
  Forall (fun p => Spec.number (X p) /\ Spec.number (Y p))
    (Spec.all_points d) ->
  (forall p, In p (Spec.all_points d) -> Spec.inside p db)
  /\ (exists p, In p (Spec.all_points d) /\ X p = X (Min db))
  /\ (exists p, In p (Spec.all_points d) /\ X p = X (Max db))
  /\ (exists p, In p (Spec.all_points d) /\ Y p = Y (Min db))
  /\ (exists p, In p (Spec.all_points d) /\ Y p = Y (Max db))
  /\ Spec.le (X (Min db)) (X (Max db))
  /\ Spec.le (Y (Min db)) (Y (Max db)).
Proof.
  intros H Hn. destruct (Bounds_Ok_first_pt d db H) as [p0 Hp0].
  rewrite (Bounds_first_pt d p0 Hp0) in H. injection H as <-.
  cbn [Min Max X Y].
  change (@math_Min float binary64.ops) with binary64.Min.
  change (@math_Max float binary64.ops) with binary64.Max.
  assert (In p0 (Spec.all_points d)) as Hin.
  { destruct (first_pt_all_points d p0 Hp0) as [pts ->]. now left. }
  destruct (coordinate_range X p0 (Spec.all_points d) Hin)
    as (X1 & X2 & X3 & X4).
  { eapply List.Forall_impl; [|exact Hn]. now intros p [? _]. }
  destruct (coordinate_range Y p0 (Spec.all_points d) Hin)
    as (Y1 & Y2 & Y3 & Y4).
  { eapply List.Forall_impl; [|exact Hn]. now intros p [_ ?]. }
  split; [|auto 10].
  intros p Hp. unfold Spec.inside. cbn [Min Max X Y].
  destruct (X1 p Hp), (Y1 p Hp). auto.
Qed.

(** X13 on a drawing with an infinite coordinate and the two zeros. *)
Lemma Bounds_tight_witness :
  let d := {| Paths := [{| Points := [{| X := 0; Y := 1.5 |};
                                      {| X := -0; Y := infinity |}];
                           Color := ColorBLACK |};
                        {| Points := [{| X := -3; Y := 0x1p-1074 |}];
                           Color := ColorRED |}] |}%float in
  let r := {| Min := {| X := -3; Y := 0x1p-1074 |};
              Max := {| X := 0; Y := infinity |} |}%float in
  Bounds d = Ok r
  /\ Spec.inside {| X := 0; Y := 1.5 |}%float r
  /\ Spec.inside {| X := -0; Y := infinity |}%float r
  /\ Spec.inside {| X := -3; Y := 0x1p-1074 |}%float r
  /\ Spec.le (X (Min r)) (X (Max r))
  /\ Spec.le (Y (Min r)) (Y (Max r)).
Proof.
  intros d r.
  assert (Bounds d = Ok r) as H by (vm_compute; reflexivity).
  destruct (Bounds_tight d r H ltac:(repeat constructor))
    as (Hin & _ & _ & _ & _ & Hx & Hy).
  split; [exact H|].
  repeat split; try assumption; apply Hin; cbn; auto.
Defined.

(** *** Flips *)


(** *** Bounds under [Translate] and [Flip] *)










(** *** [Translate] and [Scale] *)








(** *** [Length] *)

Lemma binary_round_aux_abs (s : bool) (m e : Z) (l : location) :
  SFabs (binary_round_aux prec emax s m e l)
  = SFabs (binary_round_aux prec emax false m e l).
Proof.
  unfold binary_round_aux.
  destruct (shr_fexp prec emax m e l) as [mrs' e'].
  destruct (shr_fexp prec emax _ e' loc_Exact) as [mrs'' e''].
  destruct (shr_m mrs''); try reflexivity.
  now destruct (e'' <=? emax - prec).
Qed.

Lemma binary_round_abs (s : bool) (m : positive) (e : Z) :
  SFabs (binary_round prec emax s m e)
  = SFabs (binary_round prec emax false m e).
Proof.
  unfold binary_round. destruct (shl_align m e _) as [mz ez].
  apply binary_round_aux_abs.
Qed.

Lemma binary_normalize_opp (m e : Z) (sz : bool) :
  SFabs (binary_normalize prec emax (- m) e sz)
  = SFabs (binary_normalize prec emax m e sz).
Proof.
  destruct m as [|p|p]; cbn [Z.opp binary_normalize]; try reflexivity.
  - apply binary_round_abs.
  - symmetry. apply binary_round_abs.
Qed.

(** The difference taken the other way round has the same magnitude. *)
Lemma SFsub_swap (f g : spec_float) :
  SFabs (SFsub prec emax f g) = SFabs (SFsub prec emax g f).
Proof.
  destruct f as [sf|sf| |sf mf ef], g as [sg|sg| |sg mg eg];
    cbn [SFsub SFabs]; try reflexivity;
    try (destruct sf, sg; reflexivity).
  rewrite (Z.min_comm eg ef).
  rewrite <- binary_normalize_opp. f_equal. f_equal. lia.
Qed.

(** The square depends on the magnitude only. *)
Lemma SFmul_abs (f g : spec_float) :
  SFabs f = SFabs g -> SFmul prec emax f f = SFmul prec emax g g.
Proof.
  destruct f as [sf|sf| |sf mf ef], g as [sg|sg| |sg mg eg];
    cbn [SFabs SFmul]; intros H; try discriminate; try reflexivity.
  - now rewrite !xorb_nilpotent.
  - now rewrite !xorb_nilpotent.
  - injection H as -> ->. now rewrite !xorb_nilpotent.
Qed.

Lemma sq_sub_comm (x y : float) :
  ((x - y) * (x - y))%float = ((y - x) * (y - x))%float.
Proof.
  apply Prim2SF_inj. rewrite !FloatAxioms.mul_spec, !FloatAxioms.sub_spec.
  apply SFmul_abs, SFsub_swap.
Qed.

(** A finite number less itself is [+0]. *)
Lemma sub_diag (x : float) :
  PrimFloat.is_finite x = true -> (x - x)%float = 0%float.
Proof.
  intros H. apply Prim2SF_inj. rewrite FloatAxioms.sub_spec.
  change (Prim2SF 0) with (S754_zero false).
  unfold is_finite, is_infinity, is_nan in H.
  rewrite !FloatAxioms.eqb_spec, FloatAxioms.abs_spec in H.
  change (Prim2SF infinity) with (S754_infinity false) in H.
  unfold SF64sub.
  destruct (Prim2SF x) as [s|s| |s m e]; cbn [SFsub].
  - now destruct s.
  - destruct s; discriminate.
  - discriminate.
  - rewrite Z.sub_diag. reflexivity.
Qed.

(** X18.  On [float64] [Length] is symmetric, for all points, those with
    NaN or infinite coordinates included; and the length from a point with
    finite coordinates to itself is [+0]. *)
Theorem Length_symmetric (Atan : float -> float) (p q : FPoint float) :
  geometry.Length (ext := binary64_ext.ext Atan) p q
  = geometry.Length (ext := binary64_ext.ext Atan) q p
  /\ (PrimFloat.is_finite (X p) = true -> PrimFloat.is_finite (Y p) = true ->
      geometry.Length (ext := binary64_ext.ext Atan) p p = 0%float).
Proof.
  unfold geometry.Length. cbn [math_Sqrt binary64_ext.ext].
  change (@sub float binary64.ops) with PrimFloat.sub.
  change (@mul float binary64.ops) with PrimFloat.mul.
  change (@add float binary64.ops) with PrimFloat.add.
  split.
  - now rewrite (sq_sub_comm (X q) (X p)), (sq_sub_comm (Y q) (Y p)).
  - intros Hx Hy. now rewrite (sub_diag _ Hx), (sub_diag _ Hy).
Qed.

(** *** [ThetaFromPoint] *)

Lemma ltb_irrefl (x : float) : PrimFloat.ltb x x = false.
Proof.
  rewrite FloatAxioms.ltb_spec. unfold SFltb.
  destruct (Prim2SF x) as [s|s| |s m e] eqn:E;
    try (rewrite SFcompare_refl by discriminate); reflexivity.
Qed.

(** X19.  On [float64], from a point with a finite X coordinate to a point
    with the same X coordinate, [ThetaFromPoint] returns 90 when the second
    point is higher and 270 in every other case: so 270 from a point to
    itself, and 270 when a Y coordinate is NaN. *)
Theorem ThetaFromPoint_vertical (Atan : float -> float) (p0 : FPoint float) :
  PrimFloat.is_finite (X p0) = true ->
  (forall p1,
     X p1 = X p0 ->
     geometry.ThetaFromPoint (ext := binary64_ext.ext Atan) p0 p1
     = if PrimFloat.ltb (Y p0) (Y p1) then 90%float else 270%float)
  /\ geometry.ThetaFromPoint (ext := binary64_ext.ext Atan) p0 p0
     = 270%float.
Proof.
  intros Hx.
  assert (forall p1,
            X p1 = X p0 ->
            geometry.ThetaFromPoint (ext := binary64_ext.ext Atan) p0 p1
            = if PrimFloat.ltb (Y p0) (Y p1) then 90%float
              else 270%float) as H.
  { intros p1 E. unfold geometry.ThetaFromPoint.
    cbn [f_eqb f_gtb lit90 lit180 lit270 binary64_ext.ext].
    change (@sub float binary64.ops) with PrimFloat.sub.
    change (@lit0 float binary64.ops) with 0%float.
    rewrite E, (sub_diag _ Hx), ltb_irrefl.
    change (PrimFloat.eqb 0 0) with true. reflexivity. }
  split; [exact H|]. rewrite (H p0 eq_refl). now rewrite ltb_irrefl.
Qed.

(** X19 from (3, 1) to (3, 5) and to itself. *)
Lemma ThetaFromPoint_vertical_witness :
  geometry.ThetaFromPoint (ext := binary64_ext.ext (fun x => x))
    {| X := 3; Y := 1 |}%float {| X := 3; Y := 5 |}%float = 90%float
  /\ geometry.ThetaFromPoint (ext := binary64_ext.ext (fun x => x))
       {| X := 3; Y := 1 |}%float {| X := 3; Y := 1 |}%float = 270%float.
Proof.
  destruct (ThetaFromPoint_vertical (fun x => x) {| X := 3; Y := 1 |}%float
              eq_refl) as [H1 H2].
  split; [exact (H1 {| X := 3; Y := 5 |}%float eq_refl) | exact H2].
Defined.


End Binary64More.

